(** * Flitter language engine: a shallow embedding of the VM (vm.pyx),
    the instruction optimiser and linker, and the partial evaluator and
    compiler of the language tree (tree.pyx). *)

From Stdlib Require Import String List ZArith Bool Lia.
Import ListNotations.
Open Scope list_scope.

(* ------------------------------------------------------------------ *)
(** ** Outcomes of fallible code *)

(** Python code either returns a value or raises; [Unmodelled] marks a
    branch of the source that this development does not embed. *)
Inductive outcome (A : Type) : Type :=
| Ok (a : A)
| Raise (msg : string)
| Unmodelled (what : string).
Arguments Ok {A} a.
Arguments Raise {A} msg.
Arguments Unmodelled {A} what.

Definition bind {A B : Type} (m : outcome A) (k : A -> outcome B) : outcome B :=
  match m with
  | Ok a => k a
  | Raise msg => Raise msg
  | Unmodelled w => Unmodelled w
  end.

Notation "x <- m ;; k" := (bind m (fun x => k))
  (at level 61, m at next level, right associativity).
Notation "' p <- m ;; k" := (bind m (fun x => match x with p => k end))
  (at level 61, p pattern, m at next level, right associativity).

(* ------------------------------------------------------------------ *)
(** ** Values (model.pxd: [Vector]) *)

(** A C [double], held by its IEEE-754 binary64 bit pattern: the VM
    operations modelled here only copy and box numbers. *)
Record double := mkDouble { double_bits : Z }.

Definition d_zero : double := mkDouble 0.
Definition d_one : double := mkDouble 4607182418800017408.   (* 1.0 *)

(** Host objects held by an object vector.  Nodes, [Function] values and
    [Program] values are references into the VM heap. *)
Inductive obj : Type :=
| OStr (s : string)
| ONode (id : nat)
| OFloat (d : double)            (* a boxed Python float *)
| OHost (name : string)          (* a host callable, by its builtin name *)
| OFunc (id : nat)               (* a [Function] value *)
| OProg (id : nat)               (* a compiled [Program] *)
| ONone.

(** [Vector]: [objects is None] (numeric, [numbers]) or an object list. *)
Inductive vector : Type :=
| VNum (numbers : list double)
| VObj (objects : list obj).

Definition vlength (v : vector) : nat :=
  match v with VNum l => length l | VObj l => length l end.

Definition is_numeric (v : vector) : bool :=
  match v with VNum _ => true | VObj _ => false end.

(** The canonical singletons of model.pxd. *)
Definition null_ : vector := VNum [].
Definition true_ : vector := VNum [d_one].
Definition false_ : vector := VNum [d_zero].

(** Modelled from the spec: [Vector.item] (model.pyx is not in the
    sources).  The spec gives indexing by a literal integer the slicing
    rule: element [i] when [0 <= i < n], else the element-type zero. *)
Definition item (v : vector) (i : Z) : vector :=
  match v with
  | VNum l =>
      if (0 <=? i)%Z && (i <? Z.of_nat (length l))%Z
      then VNum [nth (Z.to_nat i) l d_zero] else VNum [d_zero]
  | VObj l =>
      if (0 <=? i)%Z && (i <? Z.of_nat (length l))%Z
      then VObj [nth (Z.to_nat i) l ONone] else VObj [ONone]
  end.

(** Modelled from the spec: [Vector.as_string] for the single-string
    vectors used as import file names; other vectors give "". *)
Definition as_string (v : vector) : string :=
  match v with VObj [OStr s] => s | _ => EmptyString end.

(* ------------------------------------------------------------------ *)
(** ** The value stack (vm.pyx: [VectorStack]); the head is the top. *)

Definition pop (stack : list vector) : outcome (vector * list vector) :=
  match stack with
  | v :: rest => Ok (v, rest)
  | [] => Raise "Stack empty"
  end.

(** Boxing of one vector's elements into Python objects. *)
Definition boxed (v : vector) : list obj :=
  match v with
  | VNum l => map OFloat l
  | VObj l => l
  end.

Definition numbers_of (v : vector) : list double :=
  match v with VNum l => l | VObj _ => [] end.

(** vm.pyx [pop_composed]: the [m] top vectors, taken bottom to top. *)
Definition pop_composed (stack : list vector) (m : nat) : outcome (vector * list vector) :=
  if length stack <? m then Raise "Stack empty" else
  if m =? 1 then pop stack else
  if m =? 0 then Ok (null_, stack) else
  let ins := rev (firstn m stack) in
  let rest := skipn m stack in
  let numeric := forallb is_numeric ins in
  let n := fold_left (fun acc v => acc + vlength v) ins 0 in
  if n =? 0 then Ok (null_, rest) else
  if numeric then Ok (VNum (flat_map numbers_of ins), rest)
  else Ok (VObj (flat_map boxed ins), rest).

(* ------------------------------------------------------------------ *)
(** ** Instructions (vm.pyx: [OpCode] and the [Instruction*] classes) *)

(** A tree query (model.pxd [Query]); its matching is not modelled. *)
Record query := mkQuery {
  q_kind : option string; q_tags : list string;
  q_strict : bool; q_stop : bool; q_first : bool }.

(** One constructor per opcode, carrying its instruction class's
    payload.  C [int] payloads are [Z]; jump instructions carry their
    label and the offset set by [link]. *)
Inductive instr : Type :=
| IAdd | IAppend (n : Z) | IAppendRoot | IAttribute (name : string)
| IBeginFor | IBranchFalse (label offset : Z) | IBranchTrue (label offset : Z)
| ICall (n : Z) (names : option (list string)) | ICallFast (f : string) (n : Z)
| IClearNodeScope | ICompose (n : Z) | IDrop (n : Z) | IDup | IEndFor
| IEndForCompose | IEq | IFloorDiv | IFunc (name : string) (params : list string)
| IGe | IGt | IImport (names : list string) | IIndexLiteral (i : Z)
| IJump (label offset : Z) | ILabel (label : Z) | ILe | ILiteral (v : vector)
| ILiteralNode (node : nat) | ILiteralNodes (v : vector) | ILocalDrop (n : Z)
| ILocalLoad (n : Z) | ILocalPush (n : Z) | ILookup | ILookupLiteral (v : vector)
| ILt | IMod | IMul | IMulAdd | IName (name : string) | INe | INeg
| INext (n label offset : Z) | INot | IPos | IPow | IPragma (name : string)
| IPrepend | IPushNext (label offset : Z) | IRange | ISearch (q : query)
| ISetNodeScope | ISlice | ISliceLiteral (v : vector) | IStoreGlobal (name : string)
| ISub | ITag (name : string) | ITrueDiv | IXor.

(** [Program]: its instruction list, [linked] flag and [path]. *)
Record program := mkProgram {
  instructions : list instr; linked : bool; prog_path : nat }.

(** Arithmetic on a C [int]: the result modulo 2^32, read in
    [-2^31, 2^31) (two's complement wrap-around). *)
Definition wrap_int (z : Z) : Z := ((z + 2147483648) mod 4294967296 - 2147483648)%Z.

(** One iteration of [Program.optimize]'s loop: [acc] is the output list
    built so far, most recent instruction first.  The fused count is the
    C [int] [n = instruction.value - 1 + last.value]. *)
Definition optimize_step (acc : list instr) (i : instr) : list instr :=
  match acc with
  | [] => [i]
  | last :: acc' =>
      match last, i with
      | ICompose n, ICompose m => ICompose (wrap_int (m - 1 + n)) :: acc'
      | ICompose n, IAppend m => IAppend (wrap_int (m - 1 + n)) :: acc'
      | ICompose _, _ => i :: acc
      | IMul, IAdd => IMulAdd :: acc'
      | ILiteral v, IAppend _ => if vlength v =? 0 then acc' else i :: acc
      | ILiteral v, IAppendRoot => if vlength v =? 0 then acc' else i :: acc
      | _, _ => i :: acc
      end
  end.

(** vm.pyx [Program.optimize]. *)
Definition optimize (p : program) : outcome program :=
  if linked p then Raise "Cannot optimize a linked program"
  else Ok (mkProgram (rev (fold_left optimize_step (instructions p) [])) false (prog_path p)).

(** The composition the spec describes: numeric packing when every input
    is numeric, otherwise an object vector with the numbers boxed, the
    elements concatenated in order. *)
Definition compose_spec (ins : list vector) : vector :=
  if forallb is_numeric ins then VNum (flat_map numbers_of ins)
  else VObj (flat_map boxed ins).

Definition total_length (ins : list vector) : nat :=
  fold_left (fun acc v => acc + vlength v) ins 0.

(** The peephole rewrites the spec lists, on adjacent instruction pairs,
    with the fused count [n + m - 1] taken as a C [int]. *)
Inductive peephole_rule : list instr -> list instr -> Prop :=
| rule_compose_compose n m :
    peephole_rule [ICompose n; ICompose m] [ICompose (wrap_int (n + m - 1))]
| rule_compose_append n m :
    peephole_rule [ICompose n; IAppend m] [IAppend (wrap_int (n + m - 1))]
| rule_mul_add : peephole_rule [IMul; IAdd] [IMulAdd]
| rule_drop_append v m : vlength v = 0 -> peephole_rule [ILiteral v; IAppend m] []
| rule_drop_append_root v : vlength v = 0 -> peephole_rule [ILiteral v; IAppendRoot] [].

(** One rewrite anywhere in the list, and any number of them. *)
Inductive peephole_rewrite : list instr -> list instr -> Prop :=
| rewrite_at l1 lhs rhs l2 :
    peephole_rule lhs rhs -> peephole_rewrite (l1 ++ lhs ++ l2) (l1 ++ rhs ++ l2).

Inductive peephole_star : list instr -> list instr -> Prop :=
| star_refl l : peephole_star l l
| star_step l1 l2 l3 : peephole_rewrite l1 l2 -> peephole_star l2 l3 -> peephole_star l1 l3.

(** Whether an adjacent pair is the left-hand side of one of the rules. *)
Definition fusible (a b : instr) : bool :=
  match a, b with
  | ICompose _, ICompose _ | ICompose _, IAppend _ | IMul, IAdd => true
  | ILiteral v, IAppend _ | ILiteral v, IAppendRoot => vlength v =? 0
  | _, _ => false
  end.

Definition no_redex (l : list instr) : Prop :=
  forall l1 a b l2, l = l1 ++ a :: b :: l2 -> fusible a b = false.

(* ------------------------------------------------------------------ *)
(** ** Python dicts and sets *)

(** A Python [dict] keyed by [str]: an association list in insertion
    order.  Assigning an existing key keeps its position. *)
Definition dict := list (string * vector).

Fixpoint dict_get (d : dict) (k : string) : option vector :=
  match d with
  | [] => None
  | (k', v) :: d' => if String.eqb k k' then Some v else dict_get d' k
  end.

Fixpoint dict_set (d : dict) (k : string) (v : vector) : dict :=
  match d with
  | [] => [(k, v)]
  | (k', v') :: d' => if String.eqb k k' then (k, v) :: d' else (k', v') :: dict_set d' k v
  end.

Fixpoint dict_del (d : dict) (k : string) : dict :=
  match d with
  | [] => []
  | (k', v') :: d' => if String.eqb k k' then d' else (k', v') :: dict_del d' k
  end.

Definition dict_contains (d : dict) (k : string) : bool :=
  match dict_get d k with Some _ => true | None => false end.

(** [d.update(e)]. *)
Definition dict_update (d e : dict) : dict :=
  fold_left (fun acc kv => dict_set acc (fst kv) (snd kv)) e d.

(** [PySet_Add] on a set of strings. *)
Definition set_add (s : list string) (x : string) : list string :=
  if existsb (String.eqb x) s then s else s ++ [x].

(* ------------------------------------------------------------------ *)
(** ** Builtins (vm.pyx: [static_builtins], [dynamic_builtins],
    [all_builtins]) *)

Section Builtins.

(** The function tables imported from [functions] and [noise], which are
    not part of this development: any dicts. *)
Variables STATIC_FUNCTIONS NOISE_FUNCTIONS DYNAMIC_FUNCTIONS : dict.

Definition static_builtins : dict :=
  dict_update (dict_update [("true"%string, true_); ("false"%string, false_); ("null"%string, null_)]
                 STATIC_FUNCTIONS) NOISE_FUNCTIONS.

Definition dynamic_builtins : dict :=
  dict_update [("debug"%string, VObj [OHost "debug"])] DYNAMIC_FUNCTIONS.

Definition all_builtins : dict :=
  dict_update (dict_update [] dynamic_builtins) static_builtins.

End Builtins.

(** The three host function tables. *)
Record host := mkHost {
  STATIC_FUNCTIONS : dict; NOISE_FUNCTIONS : dict; DYNAMIC_FUNCTIONS : dict }.

Definition builtins_of (h : host) : dict :=
  all_builtins (STATIC_FUNCTIONS h) (NOISE_FUNCTIONS h) (DYNAMIC_FUNCTIONS h).
Definition static_of (h : host) : dict :=
  static_builtins (STATIC_FUNCTIONS h) (NOISE_FUNCTIONS h).
Definition dynamic_of (h : host) : dict := dynamic_builtins (DYNAMIC_FUNCTIONS h).

(* ------------------------------------------------------------------ *)
(** ** The heap: nodes, attribute maps and [Function] values *)

(** Association lists keyed by object identity. *)
Fixpoint assoc_get {A : Type} (l : list (nat * A)) (k : nat) : option A :=
  match l with
  | [] => None
  | (k', a) :: l' => if Nat.eqb k k' then Some a else assoc_get l' k
  end.

Fixpoint assoc_set {A : Type} (l : list (nat * A)) (k : nat) (a : A) : list (nat * A) :=
  match l with
  | [] => [(k, a)]
  | (k', a') :: l' => if Nat.eqb k k' then (k, a) :: l' else (k', a') :: assoc_set l' k a
  end.

(** An identity not yet in use. *)
Definition fresh_id {A : Type} (l : list (nat * A)) : nat :=
  S (fold_right Nat.max 0 (map fst l)).

(** model.pxd [Node]: its attribute map is a reference into the dict
    store, with the copy-on-write flag [_attributes_shared]. *)
Record node := mkNode {
  node_kind : string;
  node_tags : list string;
  node_attributes : nat;
  node_attributes_shared : bool;
  node_parent : option nat }.

(** vm.pyx [Function]. *)
Record function := mkFunction {
  func_name : string;
  parameters : list string;
  defaults : list vector;
  func_program : program;
  func_lvars : list vector;
  root_path : nat }.

(** The objects a run shares: the heap, and the parts of the [Context]
    that an imported module shares with its importer ([errors], [logs],
    [graph] as the list of its children, [pragmas]). *)
Record world := mkWorld {
  w_nodes : list (nat * node);
  w_dicts : list (nat * dict);
  w_funcs : list (nat * function);
  w_graph : list nat;
  w_errors : list string;
  w_logs : list string;
  w_pragmas : dict }.

Definition graph_root : nat := 0.

Definition set_nodes (w : world) (ns : list (nat * node)) : world :=
  mkWorld ns (w_dicts w) (w_funcs w) (w_graph w) (w_errors w) (w_logs w) (w_pragmas w).
Definition set_dicts (w : world) (ds : list (nat * dict)) : world :=
  mkWorld (w_nodes w) ds (w_funcs w) (w_graph w) (w_errors w) (w_logs w) (w_pragmas w).
Definition set_graph (w : world) (g : list nat) : world :=
  mkWorld (w_nodes w) (w_dicts w) (w_funcs w) g (w_errors w) (w_logs w) (w_pragmas w).
Definition add_error (w : world) (e : string) : world :=
  mkWorld (w_nodes w) (w_dicts w) (w_funcs w) (w_graph w) (set_add (w_errors w) e)
    (w_logs w) (w_pragmas w).
Definition set_pragmas (w : world) (p : dict) : world :=
  mkWorld (w_nodes w) (w_dicts w) (w_funcs w) (w_graph w) (w_errors w) (w_logs w) p.

(** The attribute map a node refers to. *)
Definition attrs_of (w : world) (id : nat) : option dict :=
  match assoc_get (w_nodes w) id with
  | Some n => assoc_get (w_dicts w) (node_attributes n)
  | None => None
  end.

(** Modelled from the spec: [Node.copy] (model.pyx is not in the sources):
    the copy shares the original's attribute map and both are marked
    shared, so that the first edit of either clones the map. *)
Definition node_copy (w : world) (id : nat) : outcome (nat * world) :=
  match assoc_get (w_nodes w) id with
  | None => Unmodelled "dangling node"
  | Some n =>
      let id' := fresh_id (w_nodes w) in
      let n_shared := mkNode (node_kind n) (node_tags n) (node_attributes n) true (node_parent n) in
      let n' := mkNode (node_kind n) (node_tags n) (node_attributes n) true None in
      Ok (id', set_nodes w (assoc_set (assoc_set (w_nodes w) id n_shared) id' n'))
  end.

(** Modelled from the spec: [Vector.copynodes]: a copy of every node. *)
Fixpoint copynodes_objs (w : world) (l : list obj) : outcome (list obj * world) :=
  match l with
  | [] => Ok ([], w)
  | ONode id :: l' =>
      r <- node_copy w id ;; let (id', w1) := r in
      r' <- copynodes_objs w1 l' ;; let (l'', w2) := r' in Ok (ONode id' :: l'', w2)
  | o :: l' => r' <- copynodes_objs w l' ;; let (l'', w2) := r' in Ok (o :: l'', w2)
  end.

Definition copynodes (w : world) (v : vector) : outcome (vector * world) :=
  match v with
  | VNum _ => Ok (v, w)
  | VObj l => r <- copynodes_objs w l ;; let (l', w') := r in Ok (VObj l', w')
  end.

(* ------------------------------------------------------------------ *)
(** ** The virtual machine (vm.pyx: [Program._execute]) *)

(** Modelled from the spec: [Context] (context.pyx is not in the sources).
    Only its identity-bearing part is a value here: the [path] of the
    program it runs and its [parent], the importing context. *)
Inductive context : Type :=
| RootContext (path : nat)
| ChildContext (path : nat) (parent : context).

Definition context_path (c : context) : nat :=
  match c with RootContext p | ChildContext p _ => p end.

(** The same context with [path] reassigned. *)
Definition with_path (c : context) (p : nat) : context :=
  match c with RootContext _ => RootContext p | ChildContext _ par => ChildContext p par end.

(** The mutable locals of one [_execute] activation: the value stack and
    the locals stack (heads are the tops), [node_scope] as a reference into
    the dict store, and [context.variables]. *)
Record frame := mkFrame {
  f_stack : list vector;
  f_lvars : list vector;
  f_scope : option nat;
  f_vars : dict }.

Definition set_stack (fr : frame) (s : list vector) : frame :=
  mkFrame s (f_lvars fr) (f_scope fr) (f_vars fr).
Definition set_lvars (fr : frame) (l : list vector) : frame :=
  mkFrame (f_stack fr) l (f_scope fr) (f_vars fr).

(** [push] is a cons; [peek] and [peek_at] raise on an empty stack. *)
Definition peek (stack : list vector) : outcome vector :=
  match stack with v :: _ => Ok v | [] => Raise "Stack empty" end.

Definition peek_at (stack : list vector) (offset : Z) : outcome vector :=
  if (offset <? 0)%Z then Unmodelled "negative stack offset" else
  match nth_error stack (Z.to_nat offset) with
  | Some v => Ok v
  | None => Raise "Stack empty"
  end.

(** [drop] is declared [noexcept]: its assertion cannot propagate, so an
    underflow is left out of the model. *)
Definition drop (stack : list vector) (n : Z) : outcome (list vector) :=
  if (n <? 0)%Z || (Z.of_nat (length stack) <? n)%Z
  then Unmodelled "drop past the bottom of a stack"
  else Ok (skipn (Z.to_nat n) stack).

(** [pop_tuple]: the [n] top values, bottom to top. *)
Definition pop_tuple (stack : list vector) (n : nat) : outcome (list vector * list vector) :=
  if length stack <? n then Raise "Stack empty"
  else Ok (rev (firstn n stack), skipn n stack).

(** [import_module]'s walk up the [parent] chain. *)
Fixpoint chain_has (c : context) (p : nat) : bool :=
  match c with
  | RootContext path => Nat.eqb path p
  | ChildContext path parent => Nat.eqb path p || chain_has parent p
  end.

(** The [Function] branch of [call_helper]: [body] executes a program in
    a context with a value stack and the function's locals stack. *)
Section CallHelper.

Variable body : context -> program -> frame -> world -> outcome (frame * world).

(** The parameter values, in push order. *)
Fixpoint bind_params (params : list string) (dflts : list vector) (i : nat)
    (args : list vector) (kwargs : option dict) : outcome (list vector) :=
  match params with
  | [] => Ok []
  | p :: ps =>
      v <- (match nth_error args i with
            | Some a => Ok a
            | None =>
                match (match kwargs with Some kw => dict_get kw p | None => None end) with
                | Some a => Ok a
                | None => match nth_error dflts i with
                          | Some d => Ok d
                          | None => Unmodelled "missing default"
                          end
                end
            end) ;;
      vs <- bind_params ps dflts (S i) args kwargs ;; Ok (v :: vs)
  end.

(** Returns the value stack, the function's locals stack and the
    variables after the call. *)
Definition call_helper (ctx : context) (func : function) (args : list vector)
    (kwargs : option dict) (stack : list vector) (vars : dict) (w : world)
    : outcome (list vector * list vector * dict * world) :=
  let m := length (parameters func) in
  vs <- bind_params (parameters func) (defaults func) 0 args kwargs ;;
  let lvars := rev vs ++ func_lvars func in
  let lvars_top := length lvars in
  let top := length stack in
  r <- body (with_path ctx (root_path func)) (func_program func) (mkFrame stack lvars None vars) w ;;
  let (fr', w') := r in
  if negb (length (f_stack fr') =? top + 1) then Raise "Bad function return stack" else
  if negb (length (f_lvars fr') =? lvars_top) then Raise "Bad function return lvars" else
  lvars' <- drop (f_lvars fr') (Z.of_nat m) ;;
  Ok (f_stack fr', lvars', f_vars fr', w').

End CallHelper.

(** [OpCode.Attribute] on one element of the node vector. *)
Definition attribute_one (name : string) (r2 : vector) (w : world) (o : obj) : outcome world :=
  match o with
  | ONode id =>
      match assoc_get (w_nodes w) id with
      | None => Unmodelled "dangling node"
      | Some n =>
          match assoc_get (w_dicts w) (node_attributes n) with
          | None => Unmodelled "dangling attribute map"
          | Some attributes =>
              let '(did, w1) :=
                if node_attributes_shared n then
                  let did := fresh_id (w_dicts w) in
                  let n' := mkNode (node_kind n) (node_tags n) did false (node_parent n) in
                  (did, set_nodes (set_dicts w (assoc_set (w_dicts w) did attributes))
                                  (assoc_set (w_nodes w) id n'))
                else (node_attributes n, w) in
              let attributes' :=
                if 0 <? vlength r2 then dict_set attributes name r2
                else if dict_contains attributes name then dict_del attributes name
                else attributes in
              Ok (set_dicts w1 (assoc_set (w_dicts w1) did attributes'))
          end
      end
  | _ => Ok w
  end.

(** A loop over the elements of an object vector that updates the heap. *)
Fixpoint for_objects (f : world -> obj -> outcome world) (l : list obj) (w : world)
    : outcome world :=
  match l with
  | [] => Ok w
  | o :: l' => w' <- f w o ;; for_objects f l' w'
  end.

Definition attribute_step (name : string) (stack : list vector) (w : world)
    : outcome (list vector * world) :=
  '(r2, s1) <- pop stack ;;
  r1 <- peek s1 ;;
  match r1 with
  | VObj objs => w' <- for_objects (fun w o => attribute_one name r2 w o) objs w ;; Ok (s1, w')
  | VNum _ => Ok (s1, w)
  end.

(** The dict [node_scope] refers to, if any. *)
Definition scope_dict (fr : frame) (w : world) : outcome (option dict) :=
  match f_scope fr with
  | None => Ok None
  | Some did => match assoc_get (w_dicts w) did with
                | Some d => Ok (Some d)
                | None => Unmodelled "dangling attribute map"
                end
  end.

(** [OpCode.Name]: variables, then builtins, then the node scope. *)
Definition name_step (h : host) (name : string) (fr : frame) (w : world)
    : outcome (frame * world) :=
  scope <- scope_dict fr w ;;
  let found :=
    match dict_get (f_vars fr) name with
    | Some v => Some v
    | None =>
        match dict_get (builtins_of h) name with
        | Some v => Some v
        | None => match scope with Some d => dict_get d name | None => None end
        end
    end in
  match found with
  | Some v => Ok (set_stack fr (v :: f_stack fr), w)
  | None => Ok (set_stack fr (null_ :: f_stack fr),
                add_error w ("Unbound name '" ++ name ++ "'")%string)
  end.

(** [OpCode.LocalPush]: one vector is popped; a single name binds it,
    several names bind its items. *)
Definition local_push_step (n : Z) (fr : frame) : outcome frame :=
  '(r1, s1) <- pop (f_stack fr) ;;
  let pushed :=
    if (n =? 1)%Z then [r1]
    else map (fun k => item r1 (Z.of_nat k)) (seq 0 (Z.to_nat n)) in
  Ok (mkFrame s1 (rev pushed ++ f_lvars fr) (f_scope fr) (f_vars fr)).

Definition local_drop_step (n : Z) (fr : frame) : outcome frame :=
  l <- drop (f_lvars fr) n ;; Ok (set_lvars fr l).

(** [OpCode.SetNodeScope]. *)
Definition set_node_scope_step (fr : frame) (w : world) : outcome (frame * world) :=
  r1 <- peek (f_stack fr) ;;
  match r1 with
  | VObj [ONode id] =>
      match assoc_get (w_nodes w) id with
      | None => Unmodelled "dangling node"
      | Some n =>
          if node_attributes_shared n then
            match assoc_get (w_dicts w) (node_attributes n) with
            | None => Unmodelled "dangling attribute map"
            | Some attributes =>
                let did := fresh_id (w_dicts w) in
                let n' := mkNode (node_kind n) (node_tags n) did false (node_parent n) in
                Ok (mkFrame (f_stack fr) (f_lvars fr) (Some did) (f_vars fr),
                    set_nodes (set_dicts w (assoc_set (w_dicts w) did attributes))
                              (assoc_set (w_nodes w) id n'))
            end
          else Ok (mkFrame (f_stack fr) (f_lvars fr) (Some (node_attributes n)) (f_vars fr), w)
      end
  | _ => Ok (fr, w)
  end.

(** Modelled from the spec: [Node.append] on the graph root sets the
    child's parent and adds it last. *)
Definition append_root_one (w : world) (o : obj) : outcome world :=
  match o with
  | ONode id =>
      match assoc_get (w_nodes w) id with
      | None => Unmodelled "dangling node"
      | Some n =>
          match node_parent n with
          | Some _ => Ok w
          | None =>
              let n' := mkNode (node_kind n) (node_tags n) (node_attributes n)
                          (node_attributes_shared n) (Some graph_root) in
              Ok (set_graph (set_nodes w (assoc_set (w_nodes w) id n')) (w_graph w ++ [id]))
          end
      end
  | _ => Ok w
  end.

Definition append_root_step (stack : list vector) (w : world) : outcome (list vector * world) :=
  '(r1, s1) <- pop stack ;;
  match r1 with
  | VObj objs => w' <- for_objects append_root_one objs w ;; Ok (s1, w')
  | VNum _ => Ok (s1, w)
  end.

(** [OpCode.Tag]. *)
Definition tag_one (name : string) (w : world) (o : obj) : outcome world :=
  match o with
  | ONode id =>
      match assoc_get (w_nodes w) id with
      | None => Unmodelled "dangling node"
      | Some n =>
          let n' := mkNode (node_kind n) (set_add (node_tags n) name) (node_attributes n)
                      (node_attributes_shared n) (node_parent n) in
          Ok (set_nodes w (assoc_set (w_nodes w) id n'))
      end
  | _ => Ok w
  end.

(** Modelled from the spec: the host source loader
    ([SharedCache.get_with_root(filename, path).read_flitter_program()]),
    which gives the compiled program of a file, or [None]. *)
Definition loader := string -> nat -> option program.

(** vm.pyx [import_module]; [run_module] executes a program in a fresh
    child context and gives its variables. *)
Definition import_module (load : loader)
    (run_module : context -> program -> world -> outcome (dict * world))
    (ctx : context) (filename : string) (w : world) : outcome (option dict * world) :=
  match load filename (context_path ctx) with
  | None => Ok (None, w)
  | Some prog =>
      if chain_has ctx (prog_path prog) then
        Ok (None, add_error w ("Circular import of " ++ filename)%string)
      else
        '(vars, w') <- run_module (ChildContext (prog_path prog) ctx) prog w ;;
        Ok (Some vars, w')
  end.

(** The values bound by [OpCode.Import], in push order, and the errors. *)
Fixpoint import_names (filename : string) (vars : dict) (names : list string) (w : world)
    : list vector * world :=
  match names with
  | [] => ([], w)
  | nm :: ns =>
      let '(v, w1) :=
        match dict_get vars nm with
        | Some v => (v, w)
        | None => (null_, add_error w ("Unable to import '" ++ nm ++ "' from '"
                                        ++ filename ++ "'")%string)
        end in
      let '(vs, w2) := import_names filename vars ns w1 in (v :: vs, w2)
  end.

Definition import_step (load : loader)
    (run_module : context -> program -> world -> outcome (dict * world))
    (ctx : context) (names : list string) (fr : frame) (w : world) : outcome (frame * world) :=
  '(r, s1) <- pop (f_stack fr) ;;
  let filename := as_string r in
  '(import_variables, w1) <- import_module load run_module ctx filename w ;;
  match import_variables with
  | Some vars =>
      let '(vs, w2) := import_names filename vars names w1 in
      Ok (mkFrame s1 (rev vs ++ f_lvars fr) (f_scope fr) (f_vars fr), w2)
  | None =>
      Ok (mkFrame s1 (repeat null_ (length names) ++ f_lvars fr) (f_scope fr) (f_vars fr),
          add_error w1 ("Unable to import from '" ++ filename ++ "'")%string)
  end.

(** [pop_dict]: keys matched with the values bottom to top. *)
Definition pop_dict (stack : list vector) (keys : list string) : outcome (dict * list vector) :=
  let n := length keys in
  if length stack <? n then Raise "Stack empty"
  else Ok (fold_left (fun d kv => dict_set d (fst kv) (snd kv))
             (combine keys (rev (firstn n stack))) [], skipn n stack).

(** [OpCode.Call]: each element of the callee vector is called in turn
    with [call_helper]; only [Function] values are embedded. *)
Definition call_step
    (body : context -> program -> frame -> world -> outcome (frame * world))
    (ctx : context) (n : Z) (names : option (list string)) (fr : frame) (w : world)
    : outcome (frame * world) :=
  '(r1, s1) <- pop (f_stack fr) ;;
  '(kwargs, s2) <- (match names with
                    | Some ks => '(d, s) <- pop_dict s1 ks ;; Ok (Some d, s)
                    | None => Ok (None, s1)
                    end) ;;
  '(args, s3) <- (if (n =? 0)%Z then Ok ([], s2)
                  else if (n <? 0)%Z then Unmodelled "negative argument count"
                  else pop_tuple s2 (Z.to_nat n)) ;;
  match r1 with
  | VNum _ => Ok (mkFrame (null_ :: s3) (f_lvars fr) (f_scope fr) (f_vars fr), w)
  | VObj objs =>
      '(s4, vars, w') <-
        fold_left
          (fun acc o =>
             '(s, vars, w) <- acc ;;
             match o with
             | OFunc fid =>
                 match assoc_get (w_funcs w) fid with
                 | None => Unmodelled "dangling function"
                 | Some func =>
                     '(s', lv', vars', w') <- call_helper body ctx func args kwargs s vars w ;;
                     let func' := mkFunction (func_name func) (parameters func) (defaults func)
                                    (func_program func) lv' (root_path func) in
                     Ok (s', vars', mkWorld (w_nodes w') (w_dicts w')
                                     (assoc_set (w_funcs w') fid func') (w_graph w')
                                     (w_errors w') (w_logs w') (w_pragmas w'))
                 end
             | _ => Unmodelled "call of a host object"
             end)
          objs (Ok (s3, f_vars fr, w)) ;;
      s5 <- (if 1 <? length objs then '(v, s) <- pop_composed s4 (length objs) ;; Ok (v :: s)
             else Ok s4) ;;
      Ok (mkFrame s5 (f_lvars fr) (f_scope fr) vars, w')
  end.

(** One instruction: the pc adjustment (a jump offset), the frame and the
    world after it. *)
Definition step (h : host) (load : loader)
    (run_module : context -> program -> world -> outcome (dict * world))
    (body : context -> program -> frame -> world -> outcome (frame * world))
    (ctx : context) (i : instr) (fr : frame) (w : world) : outcome (Z * frame * world) :=
  let stack := f_stack fr in
  let next (r : outcome (frame * world)) :=
    '(fr', w') <- r ;; Ok (0%Z, fr', w') in
  match i with
  | IDup => next (v <- peek stack ;; Ok (set_stack fr (v :: stack), w))
  | IDrop n => next (s <- drop stack n ;; Ok (set_stack fr s, w))
  | ILabel _ => Ok (0%Z, fr, w)
  | IJump _ off => Ok (off, fr, w)
  | IPragma name =>
      next ('(v, s) <- pop stack ;; Ok (set_stack fr s, set_pragmas w (dict_set (w_pragmas w) name v)))
  | IImport names => next (import_step load run_module ctx names fr w)
  | ILiteral v => Ok (0%Z, set_stack fr (v :: stack), w)
  | ILiteralNode id => next ('(id', w') <- node_copy w id ;; Ok (set_stack fr (VObj [ONode id'] :: stack), w'))
  | ILocalDrop n => next (fr' <- local_drop_step n fr ;; Ok (fr', w))
  | ILocalLoad n =>
      next (v <- peek_at (f_lvars fr) n ;; '(v', w') <- copynodes w v ;; Ok (set_stack fr (v' :: stack), w'))
  | ILocalPush n => next (fr' <- local_push_step n fr ;; Ok (fr', w))
  | IName name => next (name_step h name fr w)
  | ICall n names => next (call_step body ctx n names fr w)
  | ITag name =>
      next (r1 <- peek stack ;;
            match r1 with
            | VObj objs => w' <- for_objects (tag_one name) objs w ;; Ok (fr, w')
            | VNum _ => Ok (fr, w)
            end)
  | IAttribute name => next ('(s, w') <- attribute_step name stack w ;; Ok (set_stack fr s, w'))
  | ISetNodeScope => next (set_node_scope_step fr w)
  | IClearNodeScope => Ok (0%Z, mkFrame stack (f_lvars fr) None (f_vars fr), w)
  | IStoreGlobal name =>
      next ('(v, s) <- pop stack ;; Ok (mkFrame s (f_lvars fr) (f_scope fr) (dict_set (f_vars fr) name v), w))
  | IAppendRoot => next ('(s, w') <- append_root_step stack w ;; Ok (set_stack fr s, w'))
  | _ => Unmodelled "opcode"
  end.

(** The loop of [Program._execute] from [pc], with [fuel] bounding the
    number of instructions executed, nested runs included.  A module
    import runs the module with its own empty stacks, which must be empty
    again afterwards; a [Function] body runs on the caller's value stack. *)
Fixpoint exec_loop (fuel : nat) (h : host) (load : loader) (ctx : context)
    (code : list instr) (pc : Z) (fr : frame) (w : world) {struct fuel}
    : outcome (frame * world) :=
  match fuel with
  | O => Unmodelled "fuel exhausted"
  | S fuel' =>
      let run_module (ctx' : context) (prog : program) (w0 : world) : outcome (dict * world) :=
        if negb (linked prog) then Raise "Program has not been linked" else
        '(fr', w') <- exec_loop fuel' h load ctx' (instructions prog) 0 (mkFrame [] [] None []) w0 ;;
        match f_stack fr', f_lvars fr' with
        | [], [] => Ok (f_vars fr', w')
        | [], _ => Raise "Bad lvars"
        | _, _ => Raise "Bad stack"
        end in
      let body (ctx' : context) (prog : program) (fr0 : frame) (w0 : world) :=
        if negb (linked prog) then Raise "Program has not been linked" else
        exec_loop fuel' h load ctx' (instructions prog) 0 fr0 w0 in
      if (0 <=? pc)%Z && (pc <? Z.of_nat (length code))%Z then
        match nth_error code (Z.to_nat pc) with
        | None => Unmodelled "unreachable"
        | Some i =>
            '(off, fr', w') <- step h load run_module body ctx i fr w ;;
            exec_loop fuel' h load ctx code (pc + 1 + off)%Z fr' w'
        end
      else if (pc =? Z.of_nat (length code))%Z then Ok (fr, w)
      else Raise "Jump outside of program"
  end.

(** [Program._execute] with a fresh frame over [stack] and [lvars]. *)
Definition execute (fuel : nat) (h : host) (load : loader) (ctx : context) (p : program)
    (fr : frame) (w : world) : outcome (frame * world) :=
  if negb (linked p) then Raise "Program has not been linked"
  else exec_loop fuel h load ctx (instructions p) 0 fr w.

(** An empty [Context]'s shared parts. *)
Definition empty_world : world := mkWorld [] [] [] [] [] [] [].

(** [Program.run]: the program's own stacks start empty and must be empty
    again; the result is the context's variables and shared parts. *)
Definition run (fuel : nat) (h : host) (load : loader) (p : program) (variables : dict)
    (w : world) : outcome (dict * world) :=
  '(fr, w') <- execute fuel h load (RootContext (prog_path p)) p (mkFrame [] [] None variables) w ;;
  match f_stack fr, f_lvars fr with
  | [], [] => Ok (f_vars fr, w')
  | [], _ => Raise "Bad lvars"
  | _, _ => Raise "Bad stack"
  end.

(** The errors starting with a given text. *)
Definition count_matching (pat : string) (errors : list string) : nat :=
  length (filter (String.prefix pat) errors).


(** The order of name resolution the spec states: program variables,
    static builtins, dynamic builtins, then the node scope. *)
Definition resolve_spec (h : host) (vars : dict) (scope : option dict) (name : string)
    : option vector :=
  match dict_get vars name with
  | Some v => Some v
  | None =>
      match dict_get (static_of h) name with
      | Some v => Some v
      | None =>
          match dict_get (dynamic_of h) name with
          | Some v => Some v
          | None => match scope with Some d => dict_get d name | None => None end
          end
      end
  end.

(** The binding a sequence of assignments leaves for [k], if any. *)
Fixpoint last_get (e : dict) (k : string) (acc : option vector) : option vector :=
  match e with
  | [] => acc
  | (k', v) :: e' => last_get e' k (if String.eqb k k' then Some v else acc)
  end.


(** A dict the step may edit in place: the initial map of a node of the
    vector whose map was not shared. *)
Definition cow_unshared (objs : list obj) (w0 : world) (did : nat) : Prop :=
  exists id n, In (ONode id) objs /\ assoc_get (w_nodes w0) id = Some n /\
    node_attributes_shared n = false /\ node_attributes n = did.

(** The loop invariant of [OpCode.Attribute] with an empty value, from
    world [w0] to world [w], once the elements [done] are processed. *)
Definition attribute_inv (name : string) (objs : list obj) (w0 w : world) (done : list obj)
    : Prop :=
  (forall did d, assoc_get (w_dicts w) did = Some d -> NoDup (map fst d)) /\
  (forall did d, assoc_get (w_dicts w0) did = Some d -> exists d', assoc_get (w_dicts w) did = Some d') /\
  (forall id d0, attrs_of w0 id = Some d0 ->
     attrs_of w id = Some d0 \/ attrs_of w id = Some (dict_del d0 name)) /\
  (forall id d0, In (ONode id) done -> attrs_of w0 id = Some d0 ->
     attrs_of w id = Some (dict_del d0 name) /\
     exists n, assoc_get (w_nodes w) id = Some n /\ node_attributes_shared n = false) /\
  (forall id n, ~ In (ONode id) objs -> assoc_get (w_nodes w0) id = Some n ->
     assoc_get (w_nodes w) id = Some n) /\
  (forall id n d0, ~ In (ONode id) objs -> assoc_get (w_nodes w0) id = Some n ->
     ~ cow_unshared objs w0 (node_attributes n) ->
     assoc_get (w_dicts w0) (node_attributes n) = Some d0 ->
     assoc_get (w_dicts w) (node_attributes n) = Some d0) /\
  (forall id n, In (ONode id) objs -> assoc_get (w_nodes w) id = Some n ->
     node_attributes_shared n = false ->
     cow_unshared objs w0 (node_attributes n) \/ assoc_get (w_dicts w0) (node_attributes n) = None) /\
  w_errors w = w_errors w0 /\ w_graph w = w_graph w0 /\ w_pragmas w = w_pragmas w0 /\
  w_logs w = w_logs w0 /\ w_funcs w = w_funcs w0.


(* ------------------------------------------------------------------ *)
(** ** The syntax tree (tree.pyx) and its compiler *)

(** The expression classes modelled here.  [EFastAttributes] is
    [FastAttributes], the subclass of [Attributes] compiled without a node
    scope; [EStoreGlobal] is [StoreGlobal], a subclass of [Let];
    [EPrepend] is [Prepend], a subclass of [Append]. *)
#[warnings="-register-all"]
Inductive expr : Type :=
| ELiteral (value : vector)
| EName (name : string)
| EFunctionName (name : string)
| ECall (function : expr) (args : list expr) (keyword_args : option (list (string * expr)))
| ETag (node : expr) (tag : string)
| EAttributes (node : expr) (bindings : list (string * expr))
| EFastAttributes (node : expr) (bindings : list (string * expr))
| ESearch (q : query)
| EPragma (name : string) (e : expr)
| EImport (names : list string) (filename : expr)
| ELet (bindings : list (list string * expr))
| EStoreGlobal (bindings : list (list string * expr))
| EFunction (name : string) (parameters : list (string * option expr)) (body : expr)
| EAppend (node : expr) (children : expr)
| EPrepend (node : expr) (children : expr).

(** [NoOp = Literal(null_)]. *)
Definition NoOp : expr := ELiteral null_.

(** [isinstance(expr, NodeModifier)] and [NodeModifier.ultimate_node]. *)
Definition is_node_modifier (e : expr) : bool :=
  match e with
  | ETag _ _ | EAttributes _ _ | EFastAttributes _ _ | EAppend _ _ | EPrepend _ _ => true
  | _ => false
  end.

Fixpoint ultimate_node (e : expr) : expr :=
  match e with
  | ETag n _ | EAttributes n _ | EFastAttributes n _ | EAppend n _ | EPrepend n _ =>
      ultimate_node n
  | _ => e
  end.

Definition is_search (e : expr) : bool := match e with ESearch _ => true | _ => false end.

(** [isinstance(expr, (Let, Import, Function))]. *)
Definition is_let_import_function (e : expr) : bool :=
  match e with ELet _ | EStoreGlobal _ | EImport _ _ | EFunction _ _ _ => true | _ => false end.

Definition is_node_obj (o : obj) : bool := match o with ONode _ => true | _ => false end.

(** [Program.literal]: a single node gets [LiteralNode], a vector holding
    a node [LiteralNodes], anything else [Literal]. *)
Definition literal_instr (v : vector) : instr :=
  match v with
  | VObj [ONode id] => ILiteralNode id
  | VObj l => if existsb is_node_obj l then ILiteralNodes v else ILiteral v
  | VNum _ => ILiteral v
  end.

(** The offset [i] of the innermost local called [name]: [rl] is the
    compile-time locals list reversed, innermost first. *)
Fixpoint local_offset (name : string) (rl : list string) (i : nat) : option nat :=
  match rl with
  | [] => None
  | n :: rl' => if String.eqb name n then Some i else local_offset name rl' (S i)
  end.

(** [_compile]: the instructions and the compile-time locals list after
    the expression (a Python list, innermost name last).  [Program.extend]
    (vm.pxd, not in the sources) is modelled from the spec as appending
    the other program's instructions, which is what it does for code
    without labels; the labelled loop of [Attributes] over a non-literal
    node is not modelled. *)
Fixpoint compile_expr (e : expr) (lvars : list string) {struct e}
    : outcome (list instr * list string) :=
  let compile_args :=
    fix compile_args (es : list expr) (lv : list string) : outcome (list instr * list string) :=
      match es with
      | [] => Ok ([], lv)
      | x :: es' =>
          '(c1, lv1) <- compile_expr x lv ;;
          '(c2, lv2) <- compile_args es' lv1 ;; Ok (c1 ++ c2, lv2)
      end in
  let compile_attrs :=
    fix compile_attrs (bs : list (string * expr)) (lv : list string) : outcome (list instr * list string) :=
      match bs with
      | [] => Ok ([], lv)
      | (nm, x) :: bs' =>
          '(c1, lv1) <- compile_expr x lv ;;
          '(c2, lv2) <- compile_attrs bs' lv1 ;; Ok (c1 ++ [IAttribute nm] ++ c2, lv2)
      end in
  let compile_kwargs :=
    fix compile_kwargs (bs : list (string * expr)) (lv : list string) : outcome (list instr * list string) :=
      match bs with
      | [] => Ok ([], lv)
      | (_, x) :: bs' =>
          '(c1, lv1) <- compile_expr x lv ;;
          '(c2, lv2) <- compile_kwargs bs' lv1 ;; Ok (c1 ++ c2, lv2)
      end in
  let compile_lets :=
    fix compile_lets (store : bool) (bs : list (list string * expr)) (lv : list string)
        : outcome (list instr * list string) :=
      match bs with
      | [] => Ok ([], lv)
      | (names, x) :: bs' =>
          '(c1, lv1) <- compile_expr x lv ;;
          if store then
            match names with
            | [nm] => '(c2, lv2) <- compile_lets store bs' lv1 ;; Ok (c1 ++ [IStoreGlobal nm] ++ c2, lv2)
            | _ => Raise "StoreGlobal cannot multi-bind"
            end
          else
            '(c2, lv2) <- compile_lets store bs' (lv1 ++ names) ;;
            Ok (c1 ++ [ILocalPush (Z.of_nat (length names))] ++ c2, lv2)
      end in
  match e with
  | ELiteral v => Ok ([literal_instr v], lvars)
  | EName nm | EFunctionName nm =>
      match local_offset nm (rev lvars) 0 with
      | Some i => Ok ([ILocalLoad (Z.of_nat i)], lvars)
      | None => Ok ([IName nm], lvars)
      end
  | ECall f args kw =>
      '(c1, lv1) <- compile_args args lvars ;;
      let no_kwargs := match kw with None | Some [] => true | Some _ => false end in
      _ <- match f with
           | ELiteral (VObj [OHost _]) =>
               if no_kwargs then Unmodelled "CallFast of a host callable" else Ok tt
           | _ => Ok tt
           end ;;
      '(c2, lv2) <- match kw with Some l => compile_kwargs l lv1 | None => Ok ([], lv1) end ;;
      '(c3, lv3) <- compile_expr f lv2 ;;
      let names := match kw with Some l => map fst l | None => [] end in
      Ok (c1 ++ c2 ++ c3 ++ [ICall (Z.of_nat (length args))
                                     (match names with [] => None | _ => Some names end)], lv3)
  | ETag n t => '(c, lv) <- compile_expr n lvars ;; Ok (c ++ [ITag t], lv)
  | EAttributes n bs =>
      '(c, lv) <- compile_expr n lvars ;;
      match n with
      | ELiteral v =>
          if vlength v =? 1 then
            '(cb, lv') <- compile_attrs bs lv ;; Ok (c ++ [ISetNodeScope] ++ cb ++ [IClearNodeScope], lv')
          else Unmodelled "Attributes loop"
      | _ => Unmodelled "Attributes loop"
      end
  | EFastAttributes n bs =>
      '(c, lv) <- compile_expr n lvars ;; '(cb, lv') <- compile_attrs bs lv ;; Ok (c ++ cb, lv')
  | ESearch q => Ok ([ISearch q], lvars)
  | EPragma nm x => '(c, lv) <- compile_expr x lvars ;; Ok (c ++ [IPragma nm], lv)
  | EImport names f => '(c, lv) <- compile_expr f lvars ;; Ok (c ++ [IImport names], lv ++ names)
  | ELet bs => compile_lets false bs lvars
  | EStoreGlobal bs => compile_lets true bs lvars
  | EFunction _ _ _ => Unmodelled "Function._compile"
  | EAppend n ch =>
      '(c1, lv1) <- compile_expr n lvars ;; '(c2, lv2) <- compile_expr ch lv1 ;;
      Ok (c1 ++ c2 ++ [IAppend 1], lv2)
  | EPrepend n ch =>
      '(c1, lv1) <- compile_expr n lvars ;; '(c2, lv2) <- compile_expr ch lv1 ;;
      Ok (c1 ++ c2 ++ [IPrepend], lv2)
  end.

(** What [Top._compile] emits after a child: [Drop(1)] for a node
    modifier over a [Search], nothing for [Let], [Import] and [Function],
    [AppendRoot] otherwise. *)
Definition top_suffix (e : expr) : list instr :=
  if is_node_modifier e && is_search (ultimate_node e) then [IDrop 1]
  else if is_let_import_function e then []
  else [IAppendRoot].

(** The epilogue storing the remaining locals as globals: local [i] of
    the reversed locals list is [LocalLoad(i); StoreGlobal(name)]. *)
Fixpoint store_locals (rl : list string) (i : nat) : list instr :=
  match rl with
  | [] => []
  | nm :: rl' => [ILocalLoad (Z.of_nat i); IStoreGlobal nm] ++ store_locals rl' (S i)
  end.

(** The loop of [Top._compile] over the children, with [cc] the
    [_compile] of the children (the method each child class implements). *)
Fixpoint compile_children (cc : expr -> list string -> outcome (list instr * list string))
    (es : list expr) (lv : list string) : outcome (list instr * list string) :=
  match es with
  | [] => Ok ([], lv)
  | e :: es' =>
      '(c, lv1) <- cc e lv ;;
      '(c', lv2) <- compile_children cc es' lv1 ;; Ok (c ++ top_suffix e ++ c', lv2)
  end.

(** [Top._compile]. *)
Definition top_compile (cc : expr -> list string -> outcome (list instr * list string))
    (expressions : list expr) (lvars : list string) : outcome (list instr) :=
  '(code, lv) <- compile_children cc expressions lvars ;;
  Ok (code ++ store_locals (rev lv) 0 ++
      (match lv with [] => [] | _ => [ILocalDrop (Z.of_nat (length lv))] end)).

(** The label of a jump instruction ([InstructionJump] and its subclass
    [InstructionJumpInt]) and the same instruction with its offset set. *)
Definition jump_label (i : instr) : option Z :=
  match i with
  | IJump l _ | IBranchTrue l _ | IBranchFalse l _ | IPushNext l _ | INext _ l _ => Some l
  | _ => None
  end.

Definition set_offset (i : instr) (off : Z) : instr :=
  match i with
  | IJump l _ => IJump l off
  | IBranchTrue l _ => IBranchTrue l off
  | IBranchFalse l _ => IBranchFalse l off
  | IPushNext l _ => IPushNext l off
  | INext n l _ => INext n l off
  | _ => i
  end.

(** The address [labels[label]] holds: that of the last [Label(label)]. *)
Fixpoint label_address (code : list instr) (addr : nat) (l : Z) (acc : option nat) : option nat :=
  match code with
  | [] => acc
  | ILabel l' :: code' =>
      label_address code' (S addr) l (if Z.eqb l l' then Some addr else acc)
  | _ :: code' => label_address code' (S addr) l acc
  end.

(** [Program.link]: every jump gets [target - address]; a jump to a
    missing label raises [KeyError]. *)
Definition link (p : program) : outcome program :=
  let code := instructions p in
  let fix go (c : list instr) (addr : nat) : outcome (list instr) :=
    match c with
    | [] => Ok []
    | i :: c' =>
        i' <- match jump_label i with
              | None => Ok i
              | Some l =>
                  match label_address code 0 l None with
                  | Some t => Ok (set_offset i (Z.of_nat t - Z.of_nat addr)%Z)
                  | None => Raise "KeyError"
                  end
              end ;;
        rest <- go c' (S addr) ;; Ok (i' :: rest)
    end in
  code' <- go code 0 ;; Ok (mkProgram code' true (prog_path p)).

(** [Top.compile]: [_compile], [optimize], [link]. *)
Definition compile (expressions : list expr) : outcome program :=
  code <- top_compile compile_expr expressions [] ;;
  p <- optimize (mkProgram code false 0) ;;
  link p.

(* ------------------------------------------------------------------ *)
(** ** Partial evaluation (tree.pyx: [evaluate] and [Top.simplify]) *)

(** A value of [Context.variables] while simplifying: [None] (unknown),
    a [Vector], a [Name] expression (an alias) or a [Function]. *)
Inductive binding : Type :=
| BNone
| BVector (v : vector)
| BName (e : expr)
| BFunction (f : expr).

(** The variables dict, in insertion order. *)
Definition bvars := list (string * binding).

Fixpoint bget (d : bvars) (k : string) : option binding :=
  match d with
  | [] => None
  | (k', v) :: d' => if String.eqb k k' then Some v else bget d' k
  end.

Fixpoint bset (d : bvars) (k : string) (v : binding) : bvars :=
  match d with
  | [] => [(k, v)]
  | (k', v') :: d' => if String.eqb k k' then (k, v) :: d' else (k', v') :: bset d' k v
  end.

(** Modelled from the spec: the [Context] parts partial evaluation uses
    ([context.pyx] is not in the sources): the variables, the optional
    [unbound] set (absent in a fresh context), the [errors] set, and the
    heap the literal nodes live in. *)
Record ectx := mkECtx {
  e_variables : bvars; e_unbound : option (list string);
  e_errors : list string; e_world : world }.

Definition set_variables (c : ectx) (v : bvars) : ectx :=
  mkECtx v (e_unbound c) (e_errors c) (e_world c).
Definition set_unbound (c : ectx) (u : option (list string)) : ectx :=
  mkECtx (e_variables c) u (e_errors c) (e_world c).
Definition set_eworld (c : ectx) (w : world) : ectx :=
  mkECtx (e_variables c) (e_unbound c) (e_errors c) w.
Definition add_eerror (c : ectx) (e : string) : ectx :=
  mkECtx (e_variables c) (e_unbound c) (set_add (e_errors c) e) (e_world c).

(** Modelled from the spec: [Vector.isinstance(Node)] on a non-empty
    object vector: the node ids when every element is a node. *)
Fixpoint node_ids_of (l : list obj) : option (list nat) :=
  match l with
  | [] => Some []
  | ONode id :: l' => option_map (cons id) (node_ids_of l')
  | _ => None
  end.

(** Modelled from the spec: [n[name] = value] ([Node.set_attribute]),
    done as the VM's [Attribute] opcode does it. *)
Definition node_setitem (name : string) (value : vector) (w : world) (o : obj) : outcome world :=
  attribute_one name value w o.

Section Evaluate.

(** The recursive [evaluate] of sub-expressions. *)
Variable ev : expr -> ectx -> outcome (expr * ectx).

(** [Call.evaluate]'s argument loop: the values and whether all are
    [Literal]s. *)
Fixpoint eval_args (es : list expr) (c : ectx) : outcome (list expr * bool * ectx) :=
  match es with
  | [] => Ok ([], true, c)
  | x :: es' =>
      '(x', c1) <- ev x c ;;
      '(xs, lit, c2) <- eval_args es' c1 ;;
      Ok (x' :: xs, (match x' with ELiteral _ => true | _ => false end) && lit, c2)
  end.

Fixpoint eval_kwargs (bs : list (string * expr)) (c : ectx)
    : outcome (list (string * expr) * bool * ectx) :=
  match bs with
  | [] => Ok ([], true, c)
  | (nm, x) :: bs' =>
      '(x', c1) <- ev x c ;;
      '(xs, lit, c2) <- eval_kwargs bs' c1 ;;
      Ok ((nm, x') :: xs, (match x' with ELiteral _ => true | _ => false end) && lit, c2)
  end.

(** [Attributes.evaluate]'s list [bindings] is held top first: the head
    is its last element.  One level of the [while isinstance(node,
    Attributes)] loop appends the level's bindings last to first. *)
Fixpoint eval_level (rbs : list (string * expr)) (stack : list (string * expr)) (c : ectx)
    : outcome (list (string * expr) * ectx) :=
  match rbs with
  | [] => Ok (stack, c)
  | (nm, x) :: rbs' => '(x', c1) <- ev x c ;; eval_level rbs' ((nm, x') :: stack) c1
  end.

Fixpoint collect_attrs (node : expr) (stack : list (string * expr)) (c : ectx)
    : outcome (expr * list (string * expr) * ectx) :=
  match node with
  | EAttributes n bs | EFastAttributes n bs =>
      '(stack', c1) <- eval_level (rev bs) stack c ;; collect_attrs n stack' c1
  | _ => Ok (node, stack, c)
  end.

(** Popping the literal bindings into every node. *)
Fixpoint set_literal_bindings (ids : list nat) (stack : list (string * expr)) (w : world)
    : outcome (list (string * expr) * world) :=
  match stack with
  | (nm, ELiteral v) :: stack' =>
      w' <- for_objects (node_setitem nm v) (map ONode ids) w ;;
      set_literal_bindings ids stack' w'
  | _ => Ok (stack, w)
  end.

(** Re-evaluating the remaining bindings with the node's attributes in
    scope, until one does not become a [Literal]. *)
Fixpoint rebind_loop (id : nat) (stack : list (string * expr)) (c : ectx)
    : outcome (list (string * expr) * ectx) :=
  match stack with
  | [] => Ok ([], c)
  | (nm, x) :: stack' =>
      '(x', c1) <- ev x c ;;
      match x' with
      | ELiteral v =>
          w' <- node_setitem nm v (e_world c1) (ONode id) ;;
          let c2 := set_eworld c1 w' in
          let c3 := match bget (e_variables c2) nm with
                    | None => set_variables c2 (bset (e_variables c2) nm (BVector v))
                    | Some _ => c2
                    end in
          rebind_loop id stack' c3
      | _ => Ok ((nm, x') :: stack', c1)
      end
  end.

Definition scope_rebind (id : nat) (stack : list (string * expr)) (c : ectx)
    : outcome (list (string * expr) * ectx) :=
  match attrs_of (e_world c) id with
  | None => Unmodelled "dangling node"
  | Some attrs =>
      let saved := e_variables c in
      let vars := fold_left (fun vs kv => match bget vs (fst kv) with
                                          | None => bset vs (fst kv) (BVector (snd kv))
                                          | Some _ => vs
                                          end) attrs saved in
      '(stack', c1) <- rebind_loop id stack (set_variables c vars) ;;
      Ok (stack', set_variables c1 saved)
  end.

(** [Attributes.evaluate] (also that of [FastAttributes]). *)
Definition attributes_evaluate (e : expr) (c : ectx) : outcome (expr * ectx) :=
  let unbound := e_unbound c in
  '(node, stack, c1) <- collect_attrs e [] (set_unbound c (Some [])) ;;
  let fast := match e_unbound c1 with Some [] => true | _ => false end in
  let unbound_names := negb fast in
  '(node', c2) <- ev node (set_unbound c1 unbound) ;;
  '(stack', c3) <-
    match node' with
    | ELiteral (VObj []) => Unmodelled "Vector.isinstance of an empty vector"
    | ELiteral (VObj l) =>
        match node_ids_of l with
        | None => Ok (stack, c2)
        | Some ids =>
            '(stack1, w1) <- set_literal_bindings ids stack (e_world c2) ;;
            let c2' := set_eworld c2 w1 in
            match ids, stack1 with
            | [id], _ :: _ => if unbound_names then scope_rebind id stack1 c2' else Ok (stack1, c2')
            | _, _ => Ok (stack1, c2')
            end
        end
    | _ => Ok (stack, c2)
    end ;;
  match stack' with
  | [] => Ok (node', c3)
  | _ => Ok ((if fast then EFastAttributes else EAttributes) node' stack', c3)
  end.

(** [Let.evaluate] (also that of [StoreGlobal]): [remaining] is held
    last first. *)
Fixpoint bind_items (names : list string) (v : vector) (i : Z) (vs : bvars) : bvars :=
  match names with
  | [] => vs
  | nm :: names' => bind_items names' v (i + 1) (bset vs nm (BVector (item v i)))
  end.

Fixpoint let_loop (bs : list (list string * expr)) (remaining : list (list string * expr)) (c : ectx)
    : outcome (list (list string * expr) * ectx) :=
  match bs with
  | [] => Ok (rev remaining, c)
  | (names, x) :: bs' =>
      '(x', c1) <- ev x c ;;
      let unknown := let_loop bs' ((names, x') :: remaining)
                       (set_variables c1 (fold_left (fun vs nm => bset vs nm BNone) names
                                                    (e_variables c1))) in
      match x', names with
      | ELiteral v, [nm] => let_loop bs' remaining (set_variables c1 (bset (e_variables c1) nm (BVector v)))
      | ELiteral v, _ => let_loop bs' remaining (set_variables c1 (bind_items names v 0 (e_variables c1)))
      | EName n', [nm] | EFunctionName n', [nm] =>
          if String.eqb n' nm then let_loop bs' remaining c1
          else let_loop bs' remaining (set_variables c1 (bset (e_variables c1) nm (BName x')))
      | _, _ => unknown
      end
  end.

Definition let_evaluate (bs : list (list string * expr)) (c : ectx) : outcome (expr * ectx) :=
  '(remaining, c1) <- let_loop bs [] c ;;
  match remaining with [] => Ok (NoOp, c1) | _ => Ok (ELet remaining, c1) end.

(** [Top.evaluate]: the children, dropping empty literals, then a
    [StoreGlobal] of the variables known as vectors. *)
Fixpoint top_eval_loop (es : list expr) (c : ectx) : outcome (list expr * ectx) :=
  match es with
  | [] => Ok ([], c)
  | e :: es' =>
      '(e', c1) <- ev e c ;;
      '(rest, c2) <- top_eval_loop es' c1 ;;
      Ok ((match e' with ELiteral v => if 0 <? vlength v then [e'] else [] | _ => [e'] end) ++ rest, c2)
  end.

Definition top_evaluate (es : list expr) (c : ectx) : outcome (list expr * ectx) :=
  '(es', c1) <- top_eval_loop es c ;;
  let bindings := flat_map (fun kv => match snd kv with
                                      | BVector v => [([fst kv], ELiteral v)]
                                      | _ => []
                                      end) (e_variables c1) in
  Ok (es' ++ (match bindings with [] => [] | _ => [EStoreGlobal bindings] end), c1).

End Evaluate.

(** The end of [Append.evaluate] and [Prepend.evaluate], given the
    evaluated node and children: when both are literals of node vectors
    the children are copied into the nodes (not modelled); otherwise the
    expression is rebuilt with [rebuild]. *)
Definition append_result (rebuild : expr -> expr -> expr) (n' ch' : expr) (c : ectx)
    : outcome (expr * ectx) :=
  match n', ch' with
  | ELiteral (VObj []), ELiteral _ => Unmodelled "Vector.isinstance of an empty vector"
  | ELiteral (VObj l), ELiteral cv =>
      match node_ids_of l with
      | None => Ok (rebuild n' ch', c)
      | Some _ =>
          match cv with
          | VObj [] => Unmodelled "Vector.isinstance of an empty vector"
          | VObj l2 =>
              match node_ids_of l2 with
              | Some _ => Unmodelled "Node.append"
              | None => Ok (rebuild n' ch', c)
              end
          | VNum _ => Ok (rebuild n' ch', c)
          end
      end
  | _, _ => Ok (rebuild n' ch', c)
  end.

(** [evaluate], with [fuel] bounding the depth of nested evaluations (an
    alias [Name] is evaluated again through its target).  [Function]
    definitions, calls that inline or fold, and tagging literal nodes are
    not modelled. *)
Fixpoint evaluate (fuel : nat) (h : host) (e : expr) (c : ectx) {struct fuel}
    : outcome (expr * ectx) :=
  match fuel with
  | O => Unmodelled "fuel exhausted"
  | S fuel' =>
      let ev := evaluate fuel' h in
      match e with
      | ELiteral v =>
          match v with
          | VObj l =>
              if existsb is_node_obj l then
                '(v', w') <- copynodes (e_world c) v ;; Ok (ELiteral v', set_eworld c w')
              else Ok (e, c)
          | VNum _ => Ok (e, c)
          end
      | EName nm | EFunctionName nm =>
          match bget (e_variables c) nm with
          | Some BNone => Ok (e, c)
          | Some (BFunction _) => Ok (EFunctionName nm, c)
          | Some (BName e') => ev e' c
          | Some (BVector v) =>
              '(v', w') <- copynodes (e_world c) v ;; Ok (ELiteral v', set_eworld c w')
          | None =>
              match dict_get (static_of h) nm with
              | Some v => Ok (ELiteral v, c)
              | None =>
                  if dict_contains (dynamic_of h) nm then Ok (e, c)
                  else match e_unbound c with
                       | Some u => Ok (e, set_unbound c (Some (set_add u nm)))
                       | None => Ok (NoOp, add_eerror c ("Unbound name '" ++ nm ++ "'")%string)
                       end
              end
          end
      | ECall f args kw =>
          '(f', c1) <- ev f c ;;
          let lit := match f' with ELiteral (VObj _) => true | _ => false end in
          '(args', lit1, c2) <- eval_args ev args c1 ;;
          '(kws', lit2, c3) <- match kw with Some l => eval_kwargs ev l c2 | None => Ok ([], true, c2) end ;;
          match f' with
          | EFunctionName _ => Unmodelled "InlineLet"
          | _ => if lit && lit1 && lit2 then Unmodelled "call of literal functions"
                 else Ok (ECall f' args' (Some kws'), c3)
          end
      | ETag n t =>
          '(n', c1) <- ev n c ;;
          match n' with
          | ELiteral (VObj (_ :: _ as l)) =>
              match node_ids_of l with
              | Some _ => Unmodelled "Node.add_tag"
              | None => Ok (ETag n' t, c1)
              end
          | ELiteral (VObj []) => Unmodelled "Vector.isinstance of an empty vector"
          | _ => Ok (ETag n' t, c1)
          end
      | EAttributes _ _ | EFastAttributes _ _ => attributes_evaluate ev e c
      | ESearch _ => Ok (e, c)
      | EPragma nm x => '(x', c1) <- ev x c ;; Ok (EPragma nm x', c1)
      | EImport names f =>
          let c1 := set_variables c (fold_left (fun vs nm => bset vs nm BNone) names (e_variables c)) in
          '(f', c2) <- ev f c1 ;; Ok (EImport names f', c2)
      | ELet bs | EStoreGlobal bs => let_evaluate ev bs c
      | EFunction _ _ _ => Unmodelled "Function.evaluate"
      | EAppend n ch =>
          '(n', c1) <- ev n c ;; '(ch', c2) <- ev ch c1 ;; append_result EAppend n' ch' c2
      | EPrepend n ch =>
          '(n', c1) <- ev n c ;; '(ch', c2) <- ev ch c1 ;; append_result EPrepend n' ch' c2
      end
  end.

(** [Top.simplify]: the context's variables are [variables], then
    [undefined] names as [None]; an exception gives the tree back (not
    modelled here: its partial effects on nodes). *)
Definition simplify (fuel : nat) (h : host) (expressions : list expr) (variables : dict)
    (undefined : list string) (w : world) : outcome (list expr * world) :=
  let vars0 := fold_left (fun vs kv => bset vs (fst kv) (BVector (snd kv))) variables [] in
  let vars := fold_left (fun vs k => bset vs k BNone) undefined vars0 in
  match top_evaluate (evaluate fuel h) expressions (mkECtx vars None [] w) with
  | Ok (es', c) => Ok (es', e_world c)
  | Raise _ => Unmodelled "exception during partial evaluation"
  | Unmodelled m => Unmodelled m
  end.

(** The graph as the spec compares it: the root's children in order,
    each by kind, tags and attributes (not by identity). *)
Definition node_view (w : world) (id : nat) : option (string * list string * dict) :=
  match assoc_get (w_nodes w) id with
  | None => None
  | Some n =>
      match assoc_get (w_dicts w) (node_attributes n) with
      | None => None
      | Some d => Some (node_kind n, node_tags n, d)
      end
  end.

Definition graph_view (w : world) : list (option (string * list string * dict)) :=
  map (node_view w) (w_graph w).

(** A host without extra functions, and a loader finding no file. *)
Definition empty_host : host := mkHost [] [] [].
Definition no_loader : loader := fun _ _ => None.

(** A heap holding one node [!foo] with no attributes. *)
Definition foo_world : world :=
  mkWorld [(1, mkNode "foo" [] 1 false None)] [(1, [])] [] [] [] [] [].

(** [let x=debug], [let debug=1], then [!foo v=x] at top level. *)
Definition let_alias_tree : list expr :=
  [ELet [(["x"%string], EName "debug")]; ELet [(["debug"%string], ELiteral true_)];
   EAttributes (ELiteral (VObj [ONode 1])) [("v"%string, EName "x")]].

(** [!foo a=debug(u)] at top level, [u] unbound. *)
Definition attrs_unbound_tree : list expr :=
  [EAttributes (ELiteral (VObj [ONode 1]))
     [("a"%string, ECall (EName "debug") [EName "u"] None)]].

(** The layout of [Top] code as the spec states it: each child's code is
    followed by [Drop(1)] if it is a node modifier over a [Search], by
    nothing if it is a [Let], [Import] or [Function], and by [AppendRoot]
    otherwise. *)
Inductive top_layout (cc : expr -> list string -> outcome (list instr * list string))
    : list expr -> list string -> list instr -> list string -> Prop :=
| layout_nil lv : top_layout cc [] lv [] lv
| layout_search e es lv lv1 lv2 c rest :
    cc e lv = Ok (c, lv1) ->
    is_node_modifier e = true -> is_search (ultimate_node e) = true ->
    top_layout cc es lv1 rest lv2 ->
    top_layout cc (e :: es) lv (c ++ [IDrop 1] ++ rest) lv2
| layout_binding e es lv lv1 lv2 c rest :
    cc e lv = Ok (c, lv1) -> is_let_import_function e = true ->
    top_layout cc es lv1 rest lv2 ->
    top_layout cc (e :: es) lv (c ++ rest) lv2
| layout_root e es lv lv1 lv2 c rest :
    cc e lv = Ok (c, lv1) ->
    is_node_modifier e && is_search (ultimate_node e) = false ->
    is_let_import_function e = false ->
    top_layout cc es lv1 rest lv2 ->
    top_layout cc (e :: es) lv (c ++ [IAppendRoot] ++ rest) lv2.

(** Two modules importing each other: [A] is
    [import x;y from 'B'] and [B] is [import x from 'A'] followed by
    [let y=1], each storing its names as globals, as [Top] compiles them. *)
Definition module_A : program :=
  mkProgram [ILiteral (VObj [OStr "B"]); IImport ["x"; "y"]%string;
             ILocalLoad 1; IStoreGlobal "x"; ILocalLoad 0; IStoreGlobal "y"; ILocalDrop 2]
            true 1.
Definition module_B : program :=
  mkProgram [ILiteral (VObj [OStr "A"]); IImport ["x"]%string; ILiteral true_; ILocalPush 1;
             ILocalLoad 1; IStoreGlobal "x"; ILocalLoad 0; IStoreGlobal "y"; ILocalDrop 2]
            true 2.
Definition load_AB : loader :=
  fun filename _ =>
    if String.eqb filename "A" then Some module_A
    else if String.eqb filename "B" then Some module_B else None.

(** Two nodes sharing one attribute map [{v: true}], as [Node.copy]
    leaves them. *)
Definition cow_example_world : world :=
  mkWorld [(1, mkNode "foo" [] 1 true None); (2, mkNode "foo" [] 1 true None)]
          [(1, [("v"%string, true_)])] [] [] [] [] [].

(* ------------------------------------------------------------------ *)
(** ** [VectorStack]'s Python methods (vm.pyx) *)

(** [len(stack)], that is [top + 1]. *)
Definition stack_len (s : list vector) : Z := Z.of_nat (length s).

(** [push]: the vector becomes the top. *)
Definition push (s : list vector) (v : vector) : list vector := v :: s.

Fixpoint replace_nth (s : list vector) (k : nat) (v : vector) : list vector :=
  match s, k with
  | [], _ => []
  | _ :: s', O => v :: s'
  | x :: s', S k' => x :: replace_nth s' k' v
  end.

(** [poke_at] and [poke] replace the vector [offset] places below the top.
    They are declared [noexcept]: their assertions cannot propagate, so an
    offset outside the stack is left out of the model. *)
Definition poke_at (s : list vector) (offset : Z) (v : vector) : outcome (list vector) :=
  if (offset <? 0)%Z || (stack_len s <=? offset)%Z then Unmodelled "poke outside the stack"
  else Ok (replace_nth s (Z.to_nat offset) v).

Definition poke (s : list vector) (v : vector) : outcome (list vector) := poke_at s 0 v.

(** A Python int passed for a C [int] parameter of a [cpdef] method:
    outside [-2^31, 2^31) the conversion raises [OverflowError] before
    the method body runs. *)
Definition int_arg_ok (z : Z) : bool := (-2147483648 <=? z)%Z && (z <? 2147483648)%Z.

(** The [cpdef] methods check the count or offset against the size and
    raise [TypeError] before calling the [cdef] functions above.  A
    negative count reaches C code that indexes past the top; it is left
    out of the model. *)
Definition VectorStack_drop (s : list vector) (count : Z) : outcome (list vector) :=
  if negb (int_arg_ok count) then Raise "OverflowError"
  else if (stack_len s <? count)%Z then Raise "Insufficient items" else drop s count.

Definition VectorStack_pop_tuple (s : list vector) (count : Z)
    : outcome (list vector * list vector) :=
  if negb (int_arg_ok count) then Raise "OverflowError"
  else if (stack_len s <? count)%Z then Raise "Insufficient items"
  else if (count <? 0)%Z then Unmodelled "negative count"
  else pop_tuple s (Z.to_nat count).

(** [pop_list] gives the same vectors as [pop_tuple], in a list. *)
Definition VectorStack_pop_list (s : list vector) (count : Z)
    : outcome (list vector * list vector) :=
  if negb (int_arg_ok count) then Raise "OverflowError"
  else if (stack_len s <? count)%Z then Raise "Insufficient items"
  else if (count <? 0)%Z then Unmodelled "negative count"
  else pop_tuple s (Z.to_nat count).

Definition VectorStack_pop_dict (s : list vector) (keys : list string)
    : outcome (dict * list vector) :=
  if (stack_len s <? Z.of_nat (length keys))%Z then Raise "Insufficient items"
  else pop_dict s keys.

Definition VectorStack_pop_composed (s : list vector) (count : Z)
    : outcome (vector * list vector) :=
  if negb (int_arg_ok count) then Raise "OverflowError"
  else if (stack_len s <? count)%Z then Raise "Insufficient items"
  else if (count <? 0)%Z then Unmodelled "negative count"
  else pop_composed s (Z.to_nat count).

Definition VectorStack_peek_at (s : list vector) (offset : Z) : outcome vector :=
  if (stack_len s - 1 - offset <=? -1)%Z then Raise "Insufficient items"
  else peek_at s offset.

Definition VectorStack_poke (s : list vector) (v : vector) : outcome (list vector) :=
  match s with [] => Raise "Stack empty" | _ => poke s v end.

Definition VectorStack_poke_at (s : list vector) (offset : Z) (v : vector)
    : outcome (list vector) :=
  if (stack_len s - 1 - offset <=? -1)%Z then Raise "Insufficient items"
  else poke_at s offset v.

(** The shape of [context.graph]'s children that [OpCode.AppendRoot]
    relies on: no child twice, and every child a node with a parent. *)
Definition graph_ok (w : world) : Prop :=
  NoDup (w_graph w) /\
  forall id, In id (w_graph w) ->
    exists n, assoc_get (w_nodes w) id = Some n /\ node_parent n <> None.

(** What [AppendRoot] keeps from one heap to the next: the root's children
    only grow, and a node with a parent is left as it is. *)
Definition parented_kept (w w' : world) : Prop :=
  (exists l, w_graph w' = w_graph w ++ l) /\
  (forall id n, assoc_get (w_nodes w) id = Some n -> node_parent n <> None ->
     assoc_get (w_nodes w') id = Some n).

(** An object that is a node is a node with a parent. *)
Definition obj_parented (o : obj) (w : world) : Prop :=
  forall id, o = ONode id -> exists n, assoc_get (w_nodes w) id = Some n /\ node_parent n <> None.

(** What [Tag] keeps: every node stays, and keeps the tag [name] once it has it. *)
Definition tags_kept (name : string) (w w' : world) : Prop :=
  forall id n, assoc_get (w_nodes w) id = Some n ->
    exists n', assoc_get (w_nodes w') id = Some n' /\
      (In name (node_tags n) -> In name (node_tags n')).

(** An object that is a node carries the tag [name]. *)
Definition obj_tagged (name : string) (o : obj) (w : world) : Prop :=
  forall id, o = ONode id -> exists n, assoc_get (w_nodes w) id = Some n /\ In name (node_tags n).

(** Induction over expressions, through their lists of arguments and bindings. *)
Section ExprInd.
Variable P : expr -> Prop.
Hypothesis HLiteral : forall v, P (ELiteral v).
Hypothesis HName : forall nm, P (EName nm).
Hypothesis HFunctionName : forall nm, P (EFunctionName nm).
Hypothesis HCall : forall f args kw, P f -> Forall P args ->
  (match kw with Some l => Forall (fun b => P (snd b)) l | None => True end) ->
  P (ECall f args kw).
Hypothesis HTag : forall n t, P n -> P (ETag n t).
Hypothesis HAttributes : forall n bs, P n -> Forall (fun b => P (snd b)) bs -> P (EAttributes n bs).
Hypothesis HFastAttributes : forall n bs, P n -> Forall (fun b => P (snd b)) bs ->
  P (EFastAttributes n bs).
Hypothesis HSearch : forall q, P (ESearch q).
Hypothesis HPragma : forall nm x, P x -> P (EPragma nm x).
Hypothesis HImport : forall names f, P f -> P (EImport names f).
Hypothesis HLet : forall bs, Forall (fun b => P (snd b)) bs -> P (ELet bs).
Hypothesis HStoreGlobal : forall bs, Forall (fun b => P (snd b)) bs -> P (EStoreGlobal bs).
Hypothesis HFunction : forall nm ps body, P body -> P (EFunction nm ps body).
Hypothesis HAppend : forall n ch, P n -> P ch -> P (EAppend n ch).
Hypothesis HPrepend : forall n ch, P n -> P ch -> P (EPrepend n ch).

Fixpoint expr_nested_ind (e : expr) : P e :=
  let fix go_list (l : list expr) : Forall P l :=
    match l with
    | [] => Forall_nil P
    | x :: l' => Forall_cons x (expr_nested_ind x) (go_list l')
    end in
  let fix go_named {A : Type} (l : list (A * expr)) : Forall (fun b => P (snd b)) l :=
    match l with
    | [] => Forall_nil _
    | (a, x) :: l' => Forall_cons (a, x) (expr_nested_ind x) (go_named l')
    end in
  match e with
  | ELiteral v => HLiteral v
  | EName nm => HName nm
  | EFunctionName nm => HFunctionName nm
  | ECall f args kw =>
      HCall f args kw (expr_nested_ind f) (go_list args)
        (match kw return (match kw with Some l => Forall (fun b => P (snd b)) l | None => True end)
         with Some l => go_named l | None => I end)
  | ETag n t => HTag n t (expr_nested_ind n)
  | EAttributes n bs => HAttributes n bs (expr_nested_ind n) (go_named bs)
  | EFastAttributes n bs => HFastAttributes n bs (expr_nested_ind n) (go_named bs)
  | ESearch q => HSearch q
  | EPragma nm x => HPragma nm x (expr_nested_ind x)
  | EImport names f => HImport names f (expr_nested_ind f)
  | ELet bs => HLet bs (go_named bs)
  | EStoreGlobal bs => HStoreGlobal bs (go_named bs)
  | EFunction nm ps body => HFunction nm ps body (expr_nested_ind body)
  | EAppend n ch => HAppend n ch (expr_nested_ind n) (expr_nested_ind ch)
  | EPrepend n ch => HPrepend n ch (expr_nested_ind n) (expr_nested_ind ch)
  end.
End ExprInd.

(** Compiling [e] only appends to the compile-time locals. *)
Definition extends_lvars (e : expr) : Prop :=
  forall lv c lv', compile_expr e lv = Ok (c, lv') -> exists ext, lv' = lv ++ ext.

(** A [run_module] and a [body] that run nothing, for concrete steps. *)
Definition idle_run_module : context -> program -> world -> outcome (dict * world) :=
  fun _ _ w0 => Ok ([], w0).
Definition idle_body : context -> program -> frame -> world -> outcome (frame * world) :=
  fun _ _ fr0 w0 => Ok (fr0, w0).

(* ================================================================== *)
(** * Theorems *)

Lemma firstn_rev_app {A : Type} (ins rest : list A) :
  firstn (length ins) (rev ins ++ rest) = rev ins.
Proof.
  rewrite firstn_app, length_rev, Nat.sub_diag, firstn_O, app_nil_r.
  rewrite <- (length_rev ins), firstn_all. reflexivity.
Qed.

Lemma skipn_rev_app {A : Type} (ins rest : list A) :
  skipn (length ins) (rev ins ++ rest) = rest.
Proof.
  rewrite <- (length_rev ins), skipn_app, skipn_all, Nat.sub_diag. reflexivity.
Qed.

(** C6 (counterexample): two empty object vectors compose to [null_],
    which is not an object vector. *)
Lemma pop_composed_empty_objects :
  pop_composed [VObj []; VObj []] 2 = Ok (null_, []) /\ is_numeric null_ = true.
Proof. split; reflexivity. Qed.

(** C6 (amended): popping [m] vectors (given bottom to top as [ins])
    yields their concatenation, numeric when all are numeric and an object
    vector with boxed numbers otherwise, except that [m >= 2] vectors of
    total length zero give [null_]; [pop_composed 0] is [null_]. *)
Theorem pop_composed_spec (ins rest : list vector) :
  pop_composed (rev ins ++ rest) (length ins) =
    Ok (if (2 <=? length ins) && (total_length ins =? 0) then null_ else compose_spec ins,
        rest).
Proof.
  unfold pop_composed.
  rewrite length_app, length_rev.
  replace (length ins + length rest <? length ins) with false
    by (symmetry; apply Nat.ltb_ge; lia).
  rewrite firstn_rev_app, skipn_rev_app, rev_involutive.
  destruct ins as [|v [|w ins']]; simpl.
  - reflexivity.
  - destruct v; simpl; unfold compose_spec; simpl; rewrite ?app_nil_r; reflexivity.
  - unfold total_length, compose_spec. simpl.
    destruct (fold_left _ _ _ =? 0); [reflexivity|].
    destruct (is_numeric v && _); reflexivity.
Qed.

Lemma peephole_star_trans l1 l2 l3 :
  peephole_star l1 l2 -> peephole_star l2 l3 -> peephole_star l1 l3.
Proof. induction 1; eauto using peephole_star. Qed.

Lemma peephole_rewrite_app_r l1 l2 r :
  peephole_rewrite l1 l2 -> peephole_rewrite (l1 ++ r) (l2 ++ r).
Proof.
  intros [a lhs rhs b H]. rewrite <- !app_assoc.
  constructor. exact H.
Qed.

Lemma peephole_star_app_r l1 l2 r :
  peephole_star l1 l2 -> peephole_star (l1 ++ r) (l2 ++ r).
Proof.
  induction 1; [constructor|].
  eapply star_step; [apply peephole_rewrite_app_r; eassumption | assumption].
Qed.

Lemma peephole_one pre lhs rhs :
  peephole_rule lhs rhs -> peephole_star (pre ++ lhs) (pre ++ rhs).
Proof.
  intros H. eapply star_step; [|apply star_refl].
  replace (pre ++ lhs) with (pre ++ lhs ++ []) by (rewrite app_nil_r; reflexivity).
  replace (pre ++ rhs) with (pre ++ rhs ++ []) by (rewrite app_nil_r; reflexivity).
  constructor. exact H.
Qed.

Ltac refl_tail := simpl; rewrite <- ?app_assoc; apply star_refl.

Lemma optimize_step_sound acc i :
  peephole_star (rev acc ++ [i]) (rev (optimize_step acc i)).
Proof.
  destruct acc as [|last acc']; [apply star_refl|].
  simpl. rewrite <- app_assoc. simpl.
  destruct last; try refl_tail; destruct i; try refl_tail; simpl;
    try (destruct (vlength _ =? 0) eqn:E;
         [rewrite <- (app_nil_r (rev acc')) at 2;
          apply peephole_one; constructor; apply Nat.eqb_eq; exact E|refl_tail]).
  - match goal with |- context [IAppend (wrap_int (?m - 1 + ?n))] =>
      replace (m - 1 + n)%Z with (n + m - 1)%Z by lia end.
    apply peephole_one. constructor.
  - match goal with |- context [ICompose (wrap_int (?m - 1 + ?n))] =>
      replace (m - 1 + n)%Z with (n + m - 1)%Z by lia end.
    apply peephole_one. constructor.
  - apply peephole_one. constructor.
Qed.

Lemma optimize_fold_sound l acc :
  peephole_star (rev acc ++ l) (rev (fold_left optimize_step l acc)).
Proof.
  revert acc. induction l as [|i l IH]; intros acc; simpl.
  - rewrite app_nil_r. apply star_refl.
  - eapply peephole_star_trans; [|apply IH].
    replace (rev acc ++ i :: l) with ((rev acc ++ [i]) ++ l) by (rewrite <- app_assoc; reflexivity).
    apply peephole_star_app_r. apply optimize_step_sound.
Qed.

Lemma optimize_step_nofuse last acc' i :
  fusible last i = false -> optimize_step (last :: acc') i = i :: last :: acc'.
Proof.
  intros H. destruct last; try reflexivity; destruct i; simpl in H;
    try discriminate; try reflexivity; simpl; rewrite H; reflexivity.
Qed.

Lemma optimize_fold_nofuse l acc :
  (forall l1 a b l2, rev acc ++ l = l1 ++ a :: b :: l2 -> fusible a b = false) ->
  fold_left optimize_step l acc = rev l ++ acc.
Proof.
  revert acc. induction l as [|i l IH]; intros acc H; simpl; [reflexivity|].
  assert (Hs : optimize_step acc i = i :: acc).
  { destruct acc as [|last acc']; [reflexivity|].
    apply optimize_step_nofuse. apply (H (rev acc') last i l).
    simpl. rewrite <- app_assoc. reflexivity. }
  rewrite Hs, IH, <- app_assoc; [reflexivity|].
  intros l1 a b l2 E. apply (H l1 a b l2). rewrite <- E. simpl.
  rewrite <- app_assoc. reflexivity.
Qed.

Lemma optimize_rule_fires l1 a b rhs :
  peephole_rule [a; b] rhs -> no_redex (l1 ++ [a]) ->
  rev (fold_left optimize_step (l1 ++ [a; b]) []) = l1 ++ rhs.
Proof.
  intros Hr Hn.
  replace (l1 ++ [a; b]) with ((l1 ++ [a]) ++ [b]) by (rewrite <- app_assoc; reflexivity).
  rewrite fold_left_app, (optimize_fold_nofuse (l1 ++ [a]) []).
  2:{ intros x y z w E. apply (Hn x y z w). rewrite <- E. reflexivity. }
  rewrite app_nil_r, rev_app_distr. simpl.
  inversion Hr; subst; simpl;
    try (match goal with H : vlength _ = 0 |- _ => rewrite H end; simpl);
    rewrite ?rev_involutive, ?app_nil_r; try reflexivity;
    do 4 f_equal; lia.
Qed.

(** C4: [optimize] refuses a linked program; on an unlinked one its output
    is reached from the input by the listed rewrites of adjacent pairs
    (Compose;Compose, Compose;Append, Mul;Add, empty Literal followed by
    Append or AppendRoot), the fused count [n + m - 1] being computed as a
    C [int] that wraps around, a program with no such pair is left unchanged,
    and each rewrite fires on its pair after a prefix with no such pair. *)
Theorem optimize_peephole (p : program) :
  (linked p = true -> optimize p = Raise "Cannot optimize a linked program") /\
  (linked p = false ->
     exists q, optimize p = Ok q /\ linked q = false /\ prog_path q = prog_path p /\
       peephole_star (instructions p) (instructions q) /\
       (no_redex (instructions p) -> instructions q = instructions p)) /\
  (forall l1 a b rhs, peephole_rule [a; b] rhs -> no_redex (l1 ++ [a]) ->
     linked p = false -> instructions p = l1 ++ [a; b] ->
     exists q, optimize p = Ok q /\ instructions q = l1 ++ rhs).
Proof.
  unfold optimize. split; [|split].
  - intros H. rewrite H. reflexivity.
  - intros H. rewrite H. eexists. split; [reflexivity|]. simpl.
    split; [reflexivity|]. split; [reflexivity|]. split.
    + apply (optimize_fold_sound (instructions p) []).
    + intros Hn. rewrite optimize_fold_nofuse, app_nil_r, rev_involutive; [reflexivity|].
      simpl. exact Hn.
  - intros l1 a b rhs Hr Hn Hl Hi. rewrite Hl, Hi. eexists. split; [reflexivity|].
    simpl. apply optimize_rule_fires; assumption.
Qed.

Lemma optimize_peephole_witness :
  let p := mkProgram [ILiteral (VNum [d_one]); ICompose 2; ICompose 3; IMul; IAdd] false 0 in
  (exists q, optimize p = Ok q /\ linked q = false /\ prog_path q = prog_path p /\
     peephole_star (instructions p) (instructions q) /\
     (no_redex (instructions p) -> instructions q = instructions p)) /\
  (exists q, optimize (mkProgram [IMul; IAdd] false 0) = Ok q /\ instructions q = [] ++ [IMulAdd]).
Proof.
  intros p. split.
  - apply (proj1 (proj2 (optimize_peephole p))). reflexivity.
  - apply (proj2 (proj2 (optimize_peephole (mkProgram [IMul; IAdd] false 0))) [] IMul IAdd [IMulAdd]).
    + constructor.
    + intros l1 a b l2 E. destruct l1 as [|x [|y l1]]; simpl in E; discriminate.
    + reflexivity.
    + reflexivity.
Defined.

(** Against C4: [Compose(2147483647); Compose(2147483647)] is fused into
    [Compose(-3)], the C [int] wrap-around of [n + m - 1 = 4294967293], not
    into [Compose(n + m - 1)]. *)
Lemma optimize_compose_overflow :
  optimize (mkProgram [ICompose 2147483647; ICompose 2147483647] false 0) =
    Ok (mkProgram [ICompose (-3)] false 0) /\
  ICompose (-3) <> ICompose (2147483647 + 2147483647 - 1).
Proof.
  split; [vm_compute; reflexivity|]. intros H. injection H. lia.
Qed.

(* ------------------------------------------------------------------ *)
(** ** Dicts *)

Lemma dict_get_set d k v k' :
  dict_get (dict_set d k v) k' = if String.eqb k' k then Some v else dict_get d k'.
Proof.
  induction d as [|[k0 v0] d IH]; simpl; [reflexivity|].
  destruct (String.eqb k k0) eqn:E0.
  - apply String.eqb_eq in E0. subst k0. simpl.
    destruct (String.eqb k' k); reflexivity.
  - simpl. destruct (String.eqb k' k0) eqn:E1; [|exact IH].
    apply String.eqb_eq in E1. subst k0.
    destruct (String.eqb k' k) eqn:E2; [|reflexivity].
    apply String.eqb_eq in E2. subst k. rewrite String.eqb_refl in E0. discriminate.
Qed.

Lemma dict_get_update d e k :
  dict_get (dict_update d e) k = last_get e k (dict_get d k).
Proof.
  unfold dict_update. revert d.
  induction e as [|[k' v] e IH]; intros d; simpl; [reflexivity|].
  rewrite IH, dict_get_set. reflexivity.
Qed.

Lemma dict_get_notin d k : ~ In k (map fst d) -> dict_get d k = None.
Proof.
  induction d as [|[k0 v0] d IH]; simpl; intros H; [reflexivity|].
  destruct (String.eqb k k0) eqn:E.
  - apply String.eqb_eq in E. subst. exfalso. apply H. left. reflexivity.
  - apply IH. intros Hin. apply H. right. exact Hin.
Qed.

Lemma last_get_nodup d k acc :
  NoDup (map fst d) ->
  last_get d k acc = match dict_get d k with Some v => Some v | None => acc end.
Proof.
  revert acc. induction d as [|[k0 v0] d IH]; intros acc Hd; simpl; [reflexivity|].
  inversion Hd as [|? ? Hn Hd']; subst.
  rewrite IH by exact Hd'.
  destruct (String.eqb k k0) eqn:E; [|reflexivity].
  apply String.eqb_eq in E. subst. rewrite dict_get_notin by exact Hn. reflexivity.
Qed.

Lemma dict_set_keys d k v x :
  In x (map fst (dict_set d k v)) -> x = k \/ In x (map fst d).
Proof.
  induction d as [|[k0 v0] d IH]; simpl; intros H.
  - destruct H as [H|[]]. left. symmetry. exact H.
  - destruct (String.eqb k k0) eqn:E; simpl in H.
    + apply String.eqb_eq in E. subst. destruct H as [H|H]; [left; symmetry; exact H|].
      right. right. exact H.
    + destruct H as [H|H]; [right; left; exact H|].
      destruct (IH H) as [H'|H']; [left; exact H'|right; right; exact H'].
Qed.

Lemma dict_set_nodup d k v : NoDup (map fst d) -> NoDup (map fst (dict_set d k v)).
Proof.
  induction d as [|[k0 v0] d IH]; simpl; intros Hd.
  - constructor; [intros []|constructor].
  - inversion Hd as [|? ? Hn Hd']; subst.
    destruct (String.eqb k k0) eqn:E; simpl.
    + apply String.eqb_eq in E. subst. constructor; assumption.
    + constructor; [|apply IH; exact Hd'].
      intros Hin. destruct (dict_set_keys _ _ _ _ Hin) as [H|H].
      * subst. rewrite String.eqb_refl in E. discriminate.
      * exact (Hn H).
Qed.

Lemma dict_update_nodup d e : NoDup (map fst d) -> NoDup (map fst (dict_update d e)).
Proof.
  unfold dict_update. revert d.
  induction e as [|[k v] e IH]; intros d Hd; simpl; [exact Hd|].
  apply IH. apply dict_set_nodup. exact Hd.
Qed.

Lemma static_builtins_nodup S N : NoDup (map fst (static_builtins S N)).
Proof.
  unfold static_builtins. apply dict_update_nodup, dict_update_nodup.
  simpl. repeat constructor; simpl; intuition discriminate.
Qed.

Lemma dynamic_builtins_nodup D : NoDup (map fst (dynamic_builtins D)).
Proof.
  unfold dynamic_builtins. apply dict_update_nodup. repeat constructor. intros [].
Qed.

(** [all_builtins]: the static table takes precedence over the dynamic. *)
Lemma all_builtins_get S N D k :
  dict_get (all_builtins S N D) k =
  match dict_get (static_builtins S N) k with
  | Some v => Some v
  | None => dict_get (dynamic_builtins D) k
  end.
Proof.
  unfold all_builtins. rewrite dict_get_update, last_get_nodup by apply static_builtins_nodup.
  destruct (dict_get (static_builtins S N) k); [reflexivity|].
  rewrite dict_get_update, last_get_nodup by apply dynamic_builtins_nodup.
  destruct (dict_get (dynamic_builtins D) k); reflexivity.
Qed.

Lemma set_add_in s x : In x (set_add s x).
Proof.
  unfold set_add. destruct (existsb (String.eqb x) s) eqn:E.
  - apply existsb_exists in E. destruct E as [y [Hy E]].
    apply String.eqb_eq in E. subst. exact Hy.
  - apply in_or_app. right. left. reflexivity.
Qed.

(* ------------------------------------------------------------------ *)
(** ** Name resolution *)

(** C3: executing [Name name] pushes the first binding found in the
    program variables, then the static builtins, then the dynamic
    builtins, then the node scope; if there is none it pushes [null],
    adds an "Unbound name" error to [context.errors], and the run goes on
    (the step succeeds). *)
Theorem name_resolution_order (h : host) (name : string) (fr : frame) (w : world)
    (scope : option dict) (Hscope : scope_dict fr w = Ok scope) :
  name_step h name fr w =
    Ok (match resolve_spec h (f_vars fr) scope name with
        | Some v => (set_stack fr (v :: f_stack fr), w)
        | None => (set_stack fr (null_ :: f_stack fr),
                   add_error w ("Unbound name '" ++ name ++ "'")%string)
        end) /\
  (resolve_spec h (f_vars fr) scope name = None ->
   In ("Unbound name '" ++ name ++ "'")%string
      (w_errors (add_error w ("Unbound name '" ++ name ++ "'")%string))).
Proof.
  split.
  - unfold name_step. rewrite Hscope. simpl. unfold resolve_spec, builtins_of.
    rewrite all_builtins_get. unfold static_of, dynamic_of.
    destruct (dict_get (f_vars fr) name); [reflexivity|].
    destruct (dict_get (static_builtins _ _) name); [reflexivity|].
    destruct (dict_get (dynamic_builtins _) name); [reflexivity|].
    destruct scope as [d|]; [destruct (dict_get d name)|]; reflexivity.
  - intros _. apply set_add_in.
Qed.

Lemma name_resolution_order_witness :
  scope_dict (mkFrame [] [] None [("x"%string, true_)]) empty_world = Ok None /\
  name_step (mkHost [] [] []) "y" (mkFrame [] [] None [("x"%string, true_)]) empty_world =
    Ok (set_stack (mkFrame [] [] None [("x"%string, true_)]) [null_],
        add_error empty_world "Unbound name 'y'").
Proof.
  split; [reflexivity|].
  exact (proj1 (name_resolution_order (mkHost [] [] []) "y"
                  (mkFrame [] [] None [("x"%string, true_)]) empty_world None eq_refl)).
Defined.

(* ------------------------------------------------------------------ *)
(** ** The locals stack *)

(** C8 (counterexample): [LocalPush 2] on a value stack of two vectors
    pops only the top one; the other stays on the value stack. *)
Lemma local_push_pops_one :
  let fr := mkFrame [VNum [d_one; d_zero]; VNum [d_one]] [] None [] in
  exists fr', local_push_step 2 fr = Ok fr' /\
    f_stack fr' = [VNum [d_one]] /\
    length (f_stack fr) - length (f_stack fr') = 1 /\
    f_lvars fr' = [item (VNum [d_one; d_zero]) 1; item (VNum [d_one; d_zero]) 0].
Proof. eexists. split; [reflexivity|]. repeat split. Qed.

Lemma nth_error_rev_map_seq {A : Type} (f : nat -> A) (n k : nat) (rest : list A) :
  k < n -> nth_error (rev (map f (seq 0 n)) ++ rest) k = Some (f (n - 1 - k)).
Proof.
  intros Hk. rewrite nth_error_app1 by (rewrite length_rev, length_map, length_seq; lia).
  rewrite nth_error_rev by (rewrite length_map, length_seq; lia).
  rewrite length_map, length_seq, nth_error_map, nth_error_seq.
  destruct (Nat.ltb_spec k n); [|lia]. destruct (Nat.ltb_spec (n - S k) n); [|lia].
  simpl. f_equal. f_equal. lia.
Qed.

(** C8 (amended): for [n >= 1], [LocalPush n] pops ONE vector; with
    [n = 1] it becomes the top local, otherwise its items [0 .. n-1] are
    pushed in order, so that the local at depth [k] is item [n-1-k].
    [LocalDrop n] removes the top [n] locals, and undoes [LocalPush n]. *)
Theorem local_push_drop (n : Z) (Hn : (1 <= n)%Z) :
  (forall r1 rest lvars scope vars,
     exists fr', local_push_step n (mkFrame (r1 :: rest) lvars scope vars) = Ok fr' /\
       f_stack fr' = rest /\
       length (f_lvars fr') = Z.to_nat n + length lvars /\
       (forall k, (0 <= k < n)%Z ->
          peek_at (f_lvars fr') k = Ok (if (n =? 1)%Z then r1 else item r1 (n - 1 - k))) /\
       local_drop_step n fr' = Ok (mkFrame rest lvars scope vars)) /\
  (forall fr, (n <= Z.of_nat (length (f_lvars fr)))%Z ->
     local_drop_step n fr = Ok (set_lvars fr (skipn (Z.to_nat n) (f_lvars fr)))).
Proof.
  split.
  - intros r1 rest lvars scope vars. eexists. split; [reflexivity|]. simpl.
    split; [reflexivity|].
    destruct (Z.eqb_spec n 1) as [E|E].
    + subst n. simpl. split; [reflexivity|]. split.
      * intros k Hk. assert (k = 0%Z) by lia. subst k. reflexivity.
      * unfold local_drop_step, drop. simpl.
        rewrite (proj2 (Z.ltb_ge _ _)) by lia. reflexivity.
    + rewrite length_app, length_rev, length_map, length_seq. split; [reflexivity|]. split.
      * intros k Hk. unfold peek_at.
        rewrite (proj2 (Z.ltb_ge k 0)) by lia.
        rewrite nth_error_rev_map_seq by lia. f_equal. f_equal. lia.
      * unfold local_drop_step, drop. cbn [f_lvars f_stack f_scope f_vars].
        rewrite length_app, length_rev, length_map, length_seq.
        rewrite (proj2 (Z.ltb_ge n 0)), (proj2 (Z.ltb_ge _ n)) by lia.
        simpl. rewrite skipn_app, length_rev, length_map, length_seq, Nat.sub_diag.
        rewrite skipn_all2 by (rewrite length_rev, length_map, length_seq; lia). reflexivity.
  - intros fr H. unfold local_drop_step, drop.
    rewrite (proj2 (Z.ltb_ge n 0)), (proj2 (Z.ltb_ge _ n)) by lia.
    reflexivity.
Qed.

Lemma local_push_drop_witness :
  (1 <= 2)%Z /\
  exists fr', local_push_step 2 (mkFrame [VNum [d_one; d_zero]] [] None []) = Ok fr' /\
    f_stack fr' = [] /\ length (f_lvars fr') = Z.to_nat 2 + 0 /\
    (forall k, (0 <= k < 2)%Z ->
       peek_at (f_lvars fr') k = Ok (if (2 =? 1)%Z then VNum [d_one; d_zero]
                                    else item (VNum [d_one; d_zero]) (2 - 1 - k))) /\
    local_drop_step 2 fr' = Ok (mkFrame [] [] None []).
Proof.
  split; [lia|].
  exact (proj1 (local_push_drop 2 ltac:(lia)) (VNum [d_one; d_zero]) [] [] None []).
Defined.

(* ------------------------------------------------------------------ *)
(** ** Attribute maps *)

Lemma assoc_get_set {A : Type} (l : list (nat * A)) k a k' :
  assoc_get (assoc_set l k a) k' = if Nat.eqb k' k then Some a else assoc_get l k'.
Proof.
  induction l as [|[k0 a0] l IH]; simpl; [reflexivity|].
  destruct (Nat.eqb_spec k k0) as [E|E].
  - subst k0. simpl. destruct (Nat.eqb_spec k' k); reflexivity.
  - simpl. destruct (Nat.eqb_spec k' k0) as [E1|E1]; [|exact IH].
    subst k0. destruct (Nat.eqb_spec k' k); [congruence|reflexivity].
Qed.

Lemma assoc_get_bound {A : Type} (l : list (nat * A)) k a :
  assoc_get l k = Some a -> k <= fold_right Nat.max 0 (map fst l).
Proof.
  induction l as [|[k0 a0] l IH]; simpl; [discriminate|].
  destruct (Nat.eqb_spec k k0); intros H; [lia|]. specialize (IH H). lia.
Qed.

Lemma fresh_id_spec {A : Type} (l : list (nat * A)) : assoc_get l (fresh_id l) = None.
Proof.
  destruct (assoc_get l (fresh_id l)) eqn:E; [|reflexivity].
  apply assoc_get_bound in E. unfold fresh_id in E. lia.
Qed.

Lemma dict_get_none_notin d k : dict_get d k = None -> ~ In k (map fst d).
Proof.
  induction d as [|[k0 v0] d IH]; simpl; intros H Hin; [exact Hin|].
  destruct (String.eqb_spec k k0); [discriminate|].
  destruct Hin as [Hin|Hin]; [congruence|exact (IH H Hin)].
Qed.

Lemma dict_del_absent d k : ~ In k (map fst d) -> dict_del d k = d.
Proof.
  induction d as [|[k0 v0] d IH]; simpl; intros H; [reflexivity|].
  destruct (String.eqb_spec k k0); [exfalso; apply H; left; congruence|].
  rewrite IH; [reflexivity|]. intros Hin. apply H. right. exact Hin.
Qed.

Lemma dict_del_keys d k x : In x (map fst (dict_del d k)) -> In x (map fst d).
Proof.
  induction d as [|[k0 v0] d IH]; simpl; [intros []|].
  destruct (String.eqb k k0); simpl; [intros H; right; exact H|].
  intros [H|H]; [left; exact H|right; exact (IH H)].
Qed.

Lemma dict_del_nodup d k : NoDup (map fst d) -> NoDup (map fst (dict_del d k)).
Proof.
  induction d as [|[k0 v0] d IH]; simpl; intros Hd; [constructor|].
  inversion Hd as [|? ? Hn Hd']; subst.
  destruct (String.eqb k k0); [exact Hd'|]. simpl. constructor.
  - intros Hin. apply Hn. exact (dict_del_keys _ _ _ Hin).
  - exact (IH Hd').
Qed.

Lemma dict_del_removes d k : NoDup (map fst d) -> ~ In k (map fst (dict_del d k)).
Proof.
  induction d as [|[k0 v0] d IH]; simpl; intros Hd; [intros []|].
  inversion Hd as [|? ? Hn Hd']; subst.
  destruct (String.eqb_spec k k0) as [E|E].
  - subst. exact Hn.
  - simpl. intros [H|H]; [congruence|exact (IH Hd' H)].
Qed.

Lemma dict_del_idem d k : NoDup (map fst d) -> dict_del (dict_del d k) k = dict_del d k.
Proof. intros Hd. apply dict_del_absent, dict_del_removes, Hd. Qed.

Lemma dict_get_del_same d k : NoDup (map fst d) -> dict_get (dict_del d k) k = None.
Proof. intros Hd. apply dict_get_notin, dict_del_removes, Hd. Qed.

Lemma attribute_delete_value d k :
  (if dict_contains d k then dict_del d k else d) = dict_del d k.
Proof.
  unfold dict_contains. destruct (dict_get d k) eqn:E; [reflexivity|].
  symmetry. apply dict_del_absent, dict_get_none_notin, E.
Qed.

Lemma attrs_of_some w id d :
  attrs_of w id = Some d ->
  exists n, assoc_get (w_nodes w) id = Some n /\ assoc_get (w_dicts w) (node_attributes n) = Some d.
Proof.
  unfold attrs_of. destruct (assoc_get (w_nodes w) id) as [n|]; [|discriminate].
  intros H. exists n. split; [reflexivity|exact H].
Qed.

Lemma del_of_either name d0 c :
  NoDup (map fst d0) -> c = d0 \/ c = dict_del d0 name -> dict_del c name = dict_del d0 name.
Proof.
  intros Hd [E|E]; subst; [reflexivity|]. apply dict_del_idem, Hd.
Qed.

Lemma attribute_inv_unshared name objs w0 w done id n c :
  (forall did d, assoc_get (w_dicts w0) did = Some d -> NoDup (map fst d)) ->
  In (ONode id) objs ->
  attribute_inv name objs w0 w done ->
  assoc_get (w_nodes w) id = Some n -> node_attributes_shared n = false ->
  assoc_get (w_dicts w) (node_attributes n) = Some c ->
  attribute_inv name objs w0
    (set_dicts w (assoc_set (w_dicts w) (node_attributes n) (dict_del c name)))
    (ONode id :: done).
Proof.
  intros H0 Hin Hinv Hn Hsh Hc.
  destruct Hinv as (H1 & H8 & H2 & H3 & H4 & H5 & H6 & H7).
  set (did := node_attributes n) in *.
  (* what the edited store gives for a node's map *)
  assert (Hat : forall id2, attrs_of (set_dicts w (assoc_set (w_dicts w) did (dict_del c name))) id2 =
            match assoc_get (w_nodes w) id2 with
            | Some n2 => if Nat.eqb (node_attributes n2) did then Some (dict_del c name)
                         else assoc_get (w_dicts w) (node_attributes n2)
            | None => None end).
  { intros id2. unfold attrs_of. simpl. destruct (assoc_get (w_nodes w) id2); [|reflexivity].
    apply assoc_get_set. }
  (* a node sharing the edited map *)
  assert (Hsame : forall id2 d0, attrs_of w0 id2 = Some d0 ->
            forall n2, assoc_get (w_nodes w) id2 = Some n2 -> node_attributes n2 = did ->
            dict_del c name = dict_del d0 name).
  { intros id2 d0 Hd0 n2 Hn2 Ed. apply del_of_either.
    - destruct (attrs_of_some _ _ _ Hd0) as (? & _ & Hd). exact (H0 _ _ Hd).
    - destruct (H2 _ _ Hd0) as [E|E]; unfold attrs_of in E; rewrite Hn2, Ed, Hc in E;
        injection E as E; [left|right]; exact E. }
  split; [|split; [|split; [|split; [|split; [|split; [|split]]]]]].
  - intros k d. simpl. rewrite assoc_get_set. destruct (Nat.eqb k did).
    + intros E. injection E as <-. apply dict_del_nodup. exact (H1 _ _ Hc).
    + apply H1.
  - intros k d Hk. simpl. rewrite assoc_get_set. destruct (Nat.eqb k did); [eexists; reflexivity|].
    exact (H8 _ _ Hk).
  - intros id2 d0 Hd0. rewrite Hat.
    destruct (H2 _ _ Hd0) as [E|E]; destruct (attrs_of_some _ _ _ E) as (n2 & Hn2 & Hd2);
      rewrite Hn2; destruct (Nat.eqb_spec (node_attributes n2) did) as [Ed|Ed];
      try (right; f_equal; exact (Hsame _ _ Hd0 _ Hn2 Ed)); [left|right]; exact Hd2.
  - intros id2 d0 Hdone Hd0. rewrite Hat.
    destruct (H2 _ _ Hd0) as [E|E]; destruct (attrs_of_some _ _ _ E) as (n2 & Hn2 & Hd2).
    + destruct Hdone as [Ei|Hdone].
      * injection Ei as <-. rewrite Hn. change (node_attributes n) with did. rewrite Nat.eqb_refl.
        split; [f_equal; exact (Hsame _ _ Hd0 _ Hn eq_refl)|].
        exists n. split; [exact Hn|exact Hsh].
      * destruct (H3 _ _ Hdone Hd0) as [E' [n3 [Hn3 Hsh3]]].
        rewrite Hn3. rewrite E in E'. injection E' as E'.
        split; [|exists n3; split; [exact Hn3|exact Hsh3]].
        rewrite Hn2 in Hn3. injection Hn3 as ->.
        destruct (Nat.eqb_spec (node_attributes n3) did) as [Ed|Ed];
          [f_equal; exact (Hsame _ _ Hd0 _ Hn2 Ed)|rewrite Hd2; f_equal; exact E'].
    + rewrite Hn2. destruct (Nat.eqb_spec (node_attributes n2) did) as [Ed|Ed].
      * split; [f_equal; exact (Hsame _ _ Hd0 _ Hn2 Ed)|].
        destruct Hdone as [Ei|Hdone].
        -- injection Ei as <-. exists n. split; [exact Hn|exact Hsh].
        -- exact (proj2 (H3 _ _ Hdone Hd0)).
      * split; [exact Hd2|].
        destruct Hdone as [Ei|Hdone].
        -- injection Ei as <-. exists n. split; [exact Hn|exact Hsh].
        -- exact (proj2 (H3 _ _ Hdone Hd0)).
  - exact H4.
  - intros id2 n2 d0 Hnot Hn2 Hcow Hd0. simpl. rewrite assoc_get_set.
    destruct (Nat.eqb_spec (node_attributes n2) did) as [Ed|Ed].
    + exfalso. destruct (H6 _ _ Hin Hn Hsh) as [Hc'|Hc'].
      * apply Hcow. rewrite Ed. exact Hc'.
      * rewrite Ed in Hd0. unfold did in *. congruence.
    + exact (H5 _ _ _ Hnot Hn2 Hcow Hd0).
  - exact H6.
  - exact H7.
Qed.

Lemma attribute_inv_shared name objs w0 w done id n c :
  (forall did d, assoc_get (w_dicts w0) did = Some d -> NoDup (map fst d)) ->
  In (ONode id) objs ->
  attribute_inv name objs w0 w done ->
  assoc_get (w_nodes w) id = Some n -> node_attributes_shared n = true ->
  assoc_get (w_dicts w) (node_attributes n) = Some c ->
  let f := fresh_id (w_dicts w) in
  let n' := mkNode (node_kind n) (node_tags n) f false (node_parent n) in
  let w1 := set_nodes (set_dicts w (assoc_set (w_dicts w) f c)) (assoc_set (w_nodes w) id n') in
  attribute_inv name objs w0 (set_dicts w1 (assoc_set (w_dicts w1) f (dict_del c name)))
    (ONode id :: done).
Proof.
  intros H0 Hin Hinv Hn Hsh Hc f n' w1.
  destruct Hinv as (H1 & H8 & H2 & H3 & H4 & H5 & H6 & H7).
  assert (Hf : assoc_get (w_dicts w) f = None) by apply fresh_id_spec.
  assert (Hdicts : forall k, assoc_get (w_dicts (set_dicts w1 (assoc_set (w_dicts w1) f (dict_del c name)))) k =
                     if Nat.eqb k f then Some (dict_del c name) else assoc_get (w_dicts w) k).
  { intros k. simpl. rewrite !assoc_get_set. destruct (Nat.eqb k f); reflexivity. }
  assert (Hnodes : forall k, assoc_get (w_nodes (set_dicts w1 (assoc_set (w_dicts w1) f (dict_del c name)))) k =
                     if Nat.eqb k id then Some n' else assoc_get (w_nodes w) k).
  { intros k. simpl. apply assoc_get_set. }
  assert (Hat : forall id2, attrs_of (set_dicts w1 (assoc_set (w_dicts w1) f (dict_del c name))) id2 =
            if Nat.eqb id2 id then Some (dict_del c name)
            else match assoc_get (w_nodes w) id2 with
                 | Some n2 => if Nat.eqb (node_attributes n2) f then Some (dict_del c name)
                              else assoc_get (w_dicts w) (node_attributes n2)
                 | None => None end).
  { intros id2. unfold attrs_of. rewrite Hnodes. destruct (Nat.eqb id2 id).
    - rewrite Hdicts. simpl. rewrite Nat.eqb_refl. reflexivity.
    - destruct (assoc_get (w_nodes w) id2); [apply Hdicts|reflexivity]. }
  (* a node whose map is present is not on the fresh map *)
  assert (Hne : forall k d, assoc_get (w_dicts w) k = Some d -> Nat.eqb k f = false).
  { intros k d Hk. destruct (Nat.eqb_spec k f); [subst; congruence|reflexivity]. }
  assert (Hself : forall d0, attrs_of w0 id = Some d0 -> dict_del c name = dict_del d0 name).
  { intros d0 Hd0. apply del_of_either.
    - destruct (attrs_of_some _ _ _ Hd0) as (? & _ & Hd). exact (H0 _ _ Hd).
    - destruct (H2 _ _ Hd0) as [E|E]; unfold attrs_of in E; rewrite Hn, Hc in E;
        injection E as E; [left|right]; exact E. }
  split; [|split; [|split; [|split; [|split; [|split; [|split]]]]]].
  - intros k d. rewrite Hdicts. destruct (Nat.eqb k f).
    + intros E. injection E as <-. apply dict_del_nodup. exact (H1 _ _ Hc).
    + apply H1.
  - intros k d Hk. rewrite Hdicts. destruct (Nat.eqb k f); [eexists; reflexivity|].
    exact (H8 _ _ Hk).
  - intros id2 d0 Hd0. rewrite Hat. destruct (Nat.eqb_spec id2 id) as [->|Ei].
    + right. f_equal. exact (Hself _ Hd0).
    + destruct (H2 _ _ Hd0) as [E|E]; destruct (attrs_of_some _ _ _ E) as (n2 & Hn2 & Hd2);
        rewrite Hn2, (Hne _ _ Hd2); [left|right]; exact Hd2.
  - intros id2 d0 Hdone Hd0. rewrite Hat. destruct (Nat.eqb_spec id2 id) as [->|Ei].
    + split; [f_equal; exact (Hself _ Hd0)|]. exists n'. rewrite Hnodes, Nat.eqb_refl.
      split; reflexivity.
    + destruct Hdone as [Ei'|Hdone]; [injection Ei' as E'; congruence|].
      destruct (H3 _ _ Hdone Hd0) as [E [n3 [Hn3 Hsh3]]].
      destruct (attrs_of_some _ _ _ E) as (n2 & Hn2 & Hd2).
      rewrite Hn2, (Hne _ _ Hd2). split; [exact Hd2|].
      exists n3. rewrite Hnodes. destruct (Nat.eqb_spec id2 id); [congruence|].
      split; [exact Hn3|exact Hsh3].
  - intros id2 n2 Hnot Hn2. rewrite Hnodes. destruct (Nat.eqb_spec id2 id) as [->|Ei].
    + contradiction.
    + exact (H4 _ _ Hnot Hn2).
  - intros id2 n2 d0 Hnot Hn2 Hcow Hd0. rewrite Hdicts.
    pose proof (H5 _ _ _ Hnot Hn2 Hcow Hd0) as Hk. rewrite (Hne _ _ Hk). exact Hk.
  - intros id2 n2 Hin2. rewrite Hnodes. destruct (Nat.eqb_spec id2 id) as [->|Ei].
    + intros E _. injection E as <-. right. simpl.
      destruct (assoc_get (w_dicts w0) f) eqn:E; [|reflexivity].
      destruct (H8 _ _ E) as [d' Hd']. congruence.
    + exact (H6 _ _ Hin2).
  - exact H7.
Qed.

Lemma attribute_inv_skip name objs w0 w done o :
  (forall id, o <> ONode id) ->
  attribute_inv name objs w0 w done -> attribute_inv name objs w0 w (o :: done).
Proof.
  intros Ho (H1 & H8 & H2 & H3 & H4 & H5 & H6 & H7).
  split; [exact H1|]. split; [exact H8|]. split; [exact H2|].
  split; [|split; [exact H4|split; [exact H5|split; [exact H6|exact H7]]]].
  intros id d0 [E|E] Hd0; [exfalso; exact (Ho id E)|exact (H3 _ _ E Hd0)].
Qed.

Lemma attribute_one_inv name r2 objs w0 w done o :
  vlength r2 = 0 ->
  (forall did d, assoc_get (w_dicts w0) did = Some d -> NoDup (map fst d)) ->
  In o objs -> attribute_inv name objs w0 w done ->
  (forall id, o = ONode id -> exists d, attrs_of w0 id = Some d) ->
  exists w', attribute_one name r2 w o = Ok w' /\ attribute_inv name objs w0 w' (o :: done).
Proof.
  intros Hr2 H0 Hin Hinv Halloc.
  destruct o as [s|id|d|s|id|id|];
    try (eexists; split; [reflexivity|]; apply attribute_inv_skip; [intros ? ?; discriminate|exact Hinv]).
  destruct (Halloc id eq_refl) as [d0 Hd0].
  pose proof Hinv as (_ & _ & H2 & _).
  assert (Hw : exists c, attrs_of w id = Some c)
    by (destruct (H2 _ _ Hd0) as [E|E]; eexists; exact E).
  destruct Hw as [c Hw]. destruct (attrs_of_some _ _ _ Hw) as (n & Hn & Hc).
  unfold attribute_one. rewrite Hn, Hc, Hr2. simpl. rewrite attribute_delete_value.
  destruct (node_attributes_shared n) eqn:Hsh.
  - eexists. split; [reflexivity|].
    exact (attribute_inv_shared name objs w0 w done id n c H0 Hin Hinv Hn Hsh Hc).
  - eexists. split; [reflexivity|].
    exact (attribute_inv_unshared name objs w0 w done id n c H0 Hin Hinv Hn Hsh Hc).
Qed.

Lemma for_objects_attribute_inv name r2 objs w0 l w done :
  vlength r2 = 0 ->
  (forall did d, assoc_get (w_dicts w0) did = Some d -> NoDup (map fst d)) ->
  (forall o, In o l -> In o objs) ->
  attribute_inv name objs w0 w done ->
  (forall id, In (ONode id) l -> exists d, attrs_of w0 id = Some d) ->
  exists w', for_objects (fun w o => attribute_one name r2 w o) l w = Ok w' /\
    attribute_inv name objs w0 w' (rev l ++ done).
Proof.
  intros Hr2 H0. revert w done.
  induction l as [|o l IH]; intros w done Hsub Hinv Halloc; simpl.
  - exists w. split; [reflexivity|exact Hinv].
  - destruct (attribute_one_inv name r2 objs w0 w done o Hr2 H0 (Hsub o (or_introl eq_refl))
                Hinv (fun id E => Halloc id (or_introl E))) as [w1 [E1 Hinv1]].
    rewrite E1. simpl.
    destruct (IH w1 (o :: done) (fun o' H => Hsub o' (or_intror H)) Hinv1
                (fun id H => Halloc id (or_intror H))) as [w' [E' Hinv']].
    exists w'. split; [exact E'|]. rewrite <- app_assoc. exact Hinv'.
Qed.

Lemma attribute_inv_init name objs w0 :
  (forall did d, assoc_get (w_dicts w0) did = Some d -> NoDup (map fst d)) ->
  attribute_inv name objs w0 w0 [].
Proof.
  intros H0. split; [exact H0|]. split; [intros did d H; exists d; exact H|].
  split; [intros id d0 H; left; exact H|]. split; [intros id d0 []|].
  split; [intros id n _ H; exact H|]. split; [intros id n d0 _ _ _ H; exact H|].
  split; [|repeat split].
  intros id n Hin Hn Hsh. left. exists id, n. repeat split; assumption.
Qed.

(** C10: [Attribute name] with an empty value vector pops the value and
    keeps the node vector on the stack; every node element then has
    [name] removed from its attribute map (which no longer binds [name],
    so no empty value is stored), and has a map of its own, not shared; a
    node outside the vector keeps its attributes unless it shares the
    (unshared) map of a node of the vector, so a shared map is cloned
    before the edit; no error is recorded, the graph, pragmas and logs are
    unchanged, and a numeric vector leaves everything untouched. *)
Theorem attribute_empty_deletes (name : string) (r2 : vector) (objs : list obj)
    (rest : list vector) (w : world)
    (Hempty : vlength r2 = 0)
    (Hwf : forall did d, assoc_get (w_dicts w) did = Some d -> NoDup (map fst d))
    (Halloc : forall id, In (ONode id) objs -> exists d, attrs_of w id = Some d) :
  (exists w', attribute_step name (r2 :: VObj objs :: rest) w = Ok (VObj objs :: rest, w') /\
    (forall id d, In (ONode id) objs -> attrs_of w id = Some d ->
       attrs_of w' id = Some (dict_del d name) /\ dict_get (dict_del d name) name = None /\
       exists n, assoc_get (w_nodes w') id = Some n /\ node_attributes_shared n = false) /\
    (forall id n d, ~ In (ONode id) objs -> assoc_get (w_nodes w) id = Some n ->
       ~ cow_unshared objs w (node_attributes n) ->
       assoc_get (w_dicts w) (node_attributes n) = Some d -> attrs_of w' id = Some d) /\
    w_errors w' = w_errors w /\ w_graph w' = w_graph w /\ w_pragmas w' = w_pragmas w /\
    w_logs w' = w_logs w) /\
  (forall l, attribute_step name (r2 :: VNum l :: rest) w = Ok (VNum l :: rest, w)).
Proof.
  split; [|intros l; reflexivity].
  destruct (for_objects_attribute_inv name r2 objs w objs w [] Hempty Hwf (fun o H => H)
              (attribute_inv_init name objs w Hwf) Halloc) as [w' [E Hinv]].
  exists w'. unfold attribute_step. simpl. rewrite E. split; [reflexivity|].
  destruct Hinv as (H1 & H8 & H2 & H3 & H4 & H5 & H6 & H7 & H9 & H10 & H11 & _).
  split; [|split; [|repeat split; assumption]].
  - intros id d Hin Hd. rewrite app_nil_r in H3.
    destruct (H3 id d (proj1 (in_rev _ _) Hin) Hd) as [E1 E2].
    split; [exact E1|]. split; [|exact E2].
    apply dict_get_del_same. destruct (attrs_of_some _ _ _ Hd) as (? & _ & Hd'). exact (Hwf _ _ Hd').
  - intros id n d Hnot Hn Hcow Hd. unfold attrs_of.
    rewrite (H4 _ _ Hnot Hn). exact (H5 _ _ _ Hnot Hn Hcow Hd).
Qed.

Lemma attribute_empty_deletes_witness :
  exists w', attribute_step "v" [null_; VObj [ONode 1]] cow_example_world =
               Ok ([VObj [ONode 1]], w') /\
    attrs_of w' 1 = Some [] /\ attrs_of w' 2 = Some [("v"%string, true_)] /\
    w_errors w' = [].
Proof.
  assert (Hwf : forall did d, assoc_get (w_dicts cow_example_world) did = Some d ->
                              NoDup (map fst d)).
  { intros did d. simpl. destruct (Nat.eqb did 1); [|discriminate].
    intros E. injection E as <-. repeat constructor. intros []. }
  assert (Halloc : forall id, In (ONode id) [ONode 1] -> exists d, attrs_of cow_example_world id = Some d).
  { intros id [E|[]]. injection E as <-. eexists. reflexivity. }
  destruct (attribute_empty_deletes "v" null_ [ONode 1] [] cow_example_world eq_refl Hwf Halloc)
    as [[w' [E [Hdel [Hkeep [Herr _]]]]] _].
  exists w'. split; [exact E|]. split; [|split].
  - exact (proj1 (Hdel 1 [("v"%string, true_)] (or_introl eq_refl) eq_refl)).
  - apply (Hkeep 2 (mkNode "foo" [] 1 true None)).
    + intros [H|[]]. discriminate.
    + reflexivity.
    + intros (id & n & [Ei|[]] & Hn & Hsh & _). injection Ei as <-.
      simpl in Hn. injection Hn as <-. discriminate.
    + reflexivity.
  - exact Herr.
Defined.

Lemma bind_params_length ps ds i args kw vs :
  bind_params ps ds i args kw = Ok vs -> length vs = length ps.
Proof.
  revert i vs. induction ps as [|p ps IH]; intros i vs H; simpl in H.
  - injection H as <-. reflexivity.
  - destruct (match nth_error args i with
              | Some a => Ok a
              | None => _ end) as [v| |]; simpl in H; try discriminate.
    destruct (bind_params ps ds (S i) args kw) eqn:E; simpl in H; try discriminate.
    injection H as <-. simpl. f_equal. eapply IH. exact E.
Qed.

(** C2: a call of a [Function] value that completes leaves the value
    stack one entry taller and the locals stack at its height before the
    call; a body leaving other heights makes the call raise the assertion,
    an exception that carries no world and so is not a recorded error. *)
Theorem call_function_discipline body ctx func args kwargs stack vars w vs
    (Hb : bind_params (parameters func) (defaults func) 0 args kwargs = Ok vs) :
  (forall s' lv' vars' w',
     call_helper body ctx func args kwargs stack vars w = Ok (s', lv', vars', w') ->
     length s' = S (length stack) /\ length lv' = length (func_lvars func)) /\
  (forall fr' w',
     body (with_path ctx (root_path func)) (func_program func)
          (mkFrame stack (rev vs ++ func_lvars func) None vars) w = Ok (fr', w') ->
     (length (f_stack fr') <> S (length stack) ->
        call_helper body ctx func args kwargs stack vars w = Raise "Bad function return stack") /\
     (length (f_stack fr') = S (length stack) ->
      length (f_lvars fr') <> length vs + length (func_lvars func) ->
        call_helper body ctx func args kwargs stack vars w = Raise "Bad function return lvars")).
Proof.
  pose proof (bind_params_length _ _ _ _ _ _ Hb) as Hlen.
  unfold call_helper. rewrite Hb. cbn [bind].
  rewrite length_app, length_rev.
  split.
  - intros s' lv' vars' w' H.
    destruct (body _ _ _ _) as [[fr' w1]| |]; cbn [bind] in H; try discriminate.
    destruct (length (f_stack fr') =? length stack + 1) eqn:E1; simpl in H; [|discriminate].
    destruct (length (f_lvars fr') =? length vs + length (func_lvars func)) eqn:E2;
      simpl in H; [|discriminate].
    apply Nat.eqb_eq in E1. apply Nat.eqb_eq in E2.
    unfold drop in H.
    rewrite (proj2 (Z.ltb_ge _ _)) in H by lia.
    rewrite (proj2 (Z.ltb_ge _ _)) in H by lia.
    simpl in H. injection H as <- <- <- <-.
    split; [lia|]. rewrite length_skipn, Nat2Z.id. lia.
  - intros fr' w' H. rewrite H. cbn [bind]. split.
    + intros Hne. destruct (length (f_stack fr') =? length stack + 1) eqn:E1.
      * apply Nat.eqb_eq in E1. lia.
      * reflexivity.
    + intros Heq Hne. rewrite (proj2 (Nat.eqb_eq _ _)) by lia. simpl.
      destruct (length (f_lvars fr') =? length vs + length (func_lvars func)) eqn:E2.
      * apply Nat.eqb_eq in E2. lia.
      * reflexivity.
Qed.

Lemma call_function_discipline_witness :
  let f := mkFunction "f" ["x"%string] [null_] (mkProgram [] true 1) [] 1 in
  let body := fun (_ : context) (_ : program) (fr : frame) (w : world) =>
                Ok (set_stack fr (null_ :: f_stack fr), w) in
  (exists s' lv' vars' w',
     call_helper body (RootContext 0) f [true_] None [] [] empty_world = Ok (s', lv', vars', w') /\
     length s' = 1 /\ length lv' = 0) /\
  call_helper (fun c p fr w => Ok (fr, w)) (RootContext 0) f [true_] None [] [] empty_world =
    Raise "Bad function return stack".
Proof.
  intros f body. split.
  - do 4 eexists. split; [reflexivity|].
    exact (proj1 (call_function_discipline body (RootContext 0) f [true_] None [] [] empty_world
                   [true_] eq_refl) _ _ _ _ eq_refl).
  - exact (proj1 (proj2 (call_function_discipline (fun c p fr w => Ok (fr, w)) (RootContext 0) f
                   [true_] None [] [] empty_world [true_] eq_refl) _ _ eq_refl)
                 ltac:(simpl; lia)).
Defined.

(** C5: an [Import] of a module whose path is that of the importing
    context or of one of its ancestors records "Circular import of ..."
    and "Unable to import from ...", binds every requested name to null
    and continues with the next instruction; in the run of two modules
    importing each other exactly one error matches "Circular import" and
    the name imported through the cycle is null. *)
Theorem import_circular_null h load run_module body ctx names fr w r s1 prog
    (Hstack : f_stack fr = r :: s1)
    (Hload : load (as_string r) (context_path ctx) = Some prog)
    (Hcycle : chain_has ctx (prog_path prog) = true) :
  step h load run_module body ctx (IImport names) fr w =
    Ok (0%Z, mkFrame s1 (repeat null_ (length names) ++ f_lvars fr) (f_scope fr) (f_vars fr),
        add_error (add_error w ("Circular import of " ++ as_string r)%string)
                  ("Unable to import from '" ++ as_string r ++ "'")%string) /\
  exists vars w',
    run 100 (mkHost [] [] []) load_AB module_A [] empty_world = Ok (vars, w') /\
    count_matching "Circular import" (w_errors w') = 1 /\
    dict_get vars "x" = Some null_ /\ dict_get vars "y" = Some true_.
Proof.
  split.
  - simpl. unfold import_step. rewrite Hstack. cbn [pop bind].
    unfold import_module. rewrite Hload, Hcycle. reflexivity.
  - do 2 eexists. split; [vm_compute; reflexivity|]. vm_compute. auto.
Qed.

Lemma import_circular_null_witness :
  step (mkHost [] [] []) load_AB (fun _ _ w0 => Ok ([], w0)) (fun _ _ fr0 w0 => Ok (fr0, w0))
       (ChildContext 2 (RootContext 1)) (IImport ["x"%string])
       (mkFrame [VObj [OStr "A"]] [] None []) empty_world =
    Ok (0%Z, mkFrame [] [null_] None [],
        add_error (add_error empty_world "Circular import of A") "Unable to import from 'A'").
Proof.
  exact (proj1 (import_circular_null (mkHost [] [] []) load_AB (fun _ _ w0 => Ok ([], w0))
                  (fun _ _ fr0 w0 => Ok (fr0, w0)) (ChildContext 2 (RootContext 1)) ["x"%string]
                  (mkFrame [VObj [OStr "A"]] [] None []) empty_world (VObj [OStr "A"]) []
                  module_A eq_refl eq_refl eq_refl)).
Defined.

Lemma compile_children_layout cc es lv code lv' :
  compile_children cc es lv = Ok (code, lv') -> top_layout cc es lv code lv'.
Proof.
  revert lv code lv'. induction es as [|e es IH]; intros lv code lv' H; simpl in H.
  - injection H as <- <-. constructor.
  - destruct (cc e lv) as [[c lv1]| |] eqn:E; cbn [bind] in H; try discriminate.
    destruct (compile_children cc es lv1) as [[c' lv2]| |] eqn:E'; cbn [bind] in H;
      try discriminate.
    injection H as <- <-. specialize (IH _ _ _ E').
    unfold top_suffix.
    destruct (is_node_modifier e && is_search (ultimate_node e)) eqn:Hs.
    + apply andb_true_iff in Hs as [Hm Hq]. eapply layout_search; eauto.
    + destruct (is_let_import_function e) eqn:Hl.
      * eapply layout_binding; eauto.
      * eapply layout_root; eauto.
Qed.

(** C7: [Top._compile] emits each child's code followed by [Drop(1)] for
    a node modifier ([Tag], [Attributes], [FastAttributes], [Append] or
    [Prepend]) whose ultimate node is a [Search], by nothing for [Let], [Import] and
    [Function], and by [AppendRoot] for every other child ([Pragma]
    included); then each remaining local, innermost first at offset [i],
    is stored by [LocalLoad(i); StoreGlobal(name)], and [LocalDrop(n)]
    removes the [n] locals when there are any. *)
Theorem top_compile_layout cc es lv0 code :
  top_compile cc es lv0 = Ok code ->
  exists body lv,
    top_layout cc es lv0 body lv /\
    code = body ++ store_locals (rev lv) 0 ++
           (match lv with [] => [] | _ => [ILocalDrop (Z.of_nat (length lv))] end).
Proof.
  unfold top_compile. intros H.
  destruct (compile_children cc es lv0) as [[body lv]| |] eqn:E; cbn [bind] in H;
    try discriminate.
  injection H as <-. exists body, lv. split; [|reflexivity].
  apply compile_children_layout. exact E.
Qed.

Lemma top_compile_layout_witness :
  let q := mkQuery None [] false false false in
  exists body lv,
    top_layout compile_expr
      [EPragma "p" (ELiteral true_); ELet [(["x"%string], ELiteral true_)]; ETag (ESearch q) "t";
       EAppend (ESearch q) (ELiteral true_)]
      [] body lv /\
    body ++ store_locals (rev lv) 0 ++
      (match lv with [] => [] | _ => [ILocalDrop (Z.of_nat (length lv))] end) =
    [ILiteral true_; IPragma "p"; IAppendRoot; ILiteral true_; ILocalPush 1;
     ISearch q; ITag "t"; IDrop 1; ISearch q; ILiteral true_; IAppend 1; IDrop 1;
     ILocalLoad 0; IStoreGlobal "x"; ILocalDrop 1].
Proof.
  intros q.
  destruct (top_compile_layout compile_expr
              [EPragma "p" (ELiteral true_); ELet [(["x"%string], ELiteral true_)]; ETag (ESearch q) "t";
               EAppend (ESearch q) (ELiteral true_)]
              [] _ eq_refl) as (body & lv & Hl & He).
  exists body, lv. split; [exact Hl|]. rewrite <- He. reflexivity.
Defined.

(** Against C7: a [Tag] over a [Search] and an [Append] over a [Search]
    at top level each get [Drop(1)], not [AppendRoot]. *)
Lemma top_tag_search_no_append_root :
  let q := mkQuery None [] false false false in
  let es := [ETag (ESearch q) "t"; EAppend (ESearch q) (ELiteral true_)] in
  let code := [ISearch q; ITag "t"; IDrop 1; ISearch q; ILiteral true_; IAppend 1; IDrop 1] in
  top_compile compile_expr es [] = Ok code /\
  ~ In IAppendRoot code /\
  existsb is_let_import_function es = false.
Proof.
  intros q es code. split; [reflexivity|]. split; [|reflexivity].
  simpl. intros H. repeat destruct H as [H|H]; try discriminate; exact H.
Qed.

(** C1 (against): simplifying [let x=debug; let debug=1; !foo v=x] gives
    [v] the later value [1] of [debug] through the alias [x], while the
    compiled original binds [x] to the builtin [debug] when its [let]
    runs: the two programs build different graphs. *)
Theorem simplify_alias_changes_graph :
  exists a' w1 p1 p2 v2 w2 v3 w3,
    simplify 100 empty_host let_alias_tree [] [] foo_world = Ok (a', w1) /\
    compile a' = Ok p1 /\ compile let_alias_tree = Ok p2 /\
    run 100 empty_host no_loader p1 [] w1 = Ok (v2, w2) /\
    run 100 empty_host no_loader p2 [] w1 = Ok (v3, w3) /\
    graph_view w2 = [Some ("foo"%string, [], [("v"%string, true_)])] /\
    graph_view w3 = [Some ("foo"%string, [], [("v"%string, VObj [OHost "debug"])])] /\
    graph_view w2 <> graph_view w3.
Proof.
  destruct (simplify 100 empty_host let_alias_tree [] [] foo_world) as [[a' w1]| |] eqn:E1;
    pose proof E1 as F1; vm_compute in F1; try discriminate.
  injection F1 as Ha Hw.
  destruct (compile a') as [p1| |] eqn:E2; pose proof E2 as F2; rewrite <- Ha in F2;
    vm_compute in F2; try discriminate.
  injection F2 as Hp1.
  destruct (compile let_alias_tree) as [p2| |] eqn:E3; pose proof E3 as F3;
    vm_compute in F3; try discriminate.
  injection F3 as Hp2.
  destruct (run 100 empty_host no_loader p1 [] w1) as [[v2 w2]| |] eqn:E4; pose proof E4 as F4;
    rewrite <- Hp1, <- Hw in F4; vm_compute in F4; try discriminate.
  injection F4 as Hv2 Hw2.
  destruct (run 100 empty_host no_loader p2 [] w1) as [[v3 w3]| |] eqn:E5; pose proof E5 as F5;
    rewrite <- Hp2, <- Hw in F5; vm_compute in F5; try discriminate.
  injection F5 as Hv3 Hw3.
  exists a', w1, p1, p2, v2, w2, v3, w3.
  do 5 (split; [first [assumption | reflexivity]|]).
  subst w2 w3. split; [vm_compute; reflexivity|]. split; [vm_compute; reflexivity|].
  vm_compute. discriminate.
Qed.

(** C9 (against): simplifying [!foo a=debug(u)] twice turns the
    [Attributes] of the first pass into [FastAttributes]: the first pass
    fixes [fast] before the node-scope re-evaluation replaces the unbound
    [u] by null, and the second pass finds no unbound name. *)
Theorem simplify_not_idempotent :
  exists s1 w1 s2 w2 n1 n2 bs,
    simplify 100 empty_host attrs_unbound_tree [] [] foo_world = Ok (s1, w1) /\
    simplify 100 empty_host s1 [] [] w1 = Ok (s2, w2) /\
    s1 = [EAttributes (ELiteral (VObj [ONode n1])) bs] /\
    s2 = [EFastAttributes (ELiteral (VObj [ONode n2])) bs] /\
    bs = [("a"%string, ECall (EName "debug") [NoOp] (Some []))] /\
    node_view w2 n1 = node_view w2 n2 /\ s1 <> s2.
Proof.
  destruct (simplify 100 empty_host attrs_unbound_tree [] [] foo_world) as [[s1 w1]| |] eqn:E1;
    pose proof E1 as F1; vm_compute in F1; try discriminate.
  injection F1 as Hs1 Hw1.
  destruct (simplify 100 empty_host s1 [] [] w1) as [[s2 w2]| |] eqn:E2; pose proof E2 as F2;
    rewrite <- Hs1, <- Hw1 in F2; vm_compute in F2; try discriminate.
  injection F2 as Hs2 Hw2.
  exists s1, w1, s2, w2, 2, 3, [("a"%string, ECall (EName "debug") [NoOp] (Some []))].
  do 2 (split; [first [assumption | reflexivity]|]).
  subst s1 s2 w2. split; [reflexivity|]. split; [reflexivity|]. split; [reflexivity|].
  split; [vm_compute; reflexivity|]. discriminate.
Qed.

(* ------------------------------------------------------------------ *)
(** ** Further properties of the code *)

Lemma push_all_rev (l s : list vector) : fold_left push l s = rev l ++ s.
Proof.
  revert s. induction l as [|v l IH]; intros s; simpl; [reflexivity|].
  rewrite IH. unfold push. rewrite <- app_assoc. reflexivity.
Qed.

(** X1: Pushing the vectors [l] onto a stack, then popping [len l] of them
    with [VectorStack.pop_tuple] or [pop_list], gives [l] back in push order
    and leaves the stack as it was, unless [len l] does not fit the C [int]
    count parameter, which raises [OverflowError]. *)
Lemma stack_pop_tuple_push (s l : list vector) :
  VectorStack_pop_tuple (fold_left push l s) (Z.of_nat (length l)) =
    (if (Z.of_nat (length l) <? 2147483648)%Z then Ok (l, s) else Raise "OverflowError") /\
    VectorStack_pop_list (fold_left push l s) (Z.of_nat (length l)) =
    (if (Z.of_nat (length l) <? 2147483648)%Z then Ok (l, s) else Raise "OverflowError").
Proof.
  unfold VectorStack_pop_tuple, VectorStack_pop_list, int_arg_ok.
  rewrite (proj2 (Z.leb_le _ _)) by lia. simpl andb.
  destruct (Z.of_nat (length l) <? 2147483648)%Z; simpl negb; cbv iota; [|split; reflexivity].
  rewrite push_all_rev. unfold stack_len, pop_tuple.
  rewrite length_app, length_rev.
  rewrite (proj2 (Z.ltb_ge _ _)) by lia. rewrite (proj2 (Z.ltb_ge _ _)) by lia.
  rewrite Nat2Z.id. rewrite (proj2 (Nat.ltb_ge _ _)) by lia.
  rewrite <- (length_rev l).
  rewrite firstn_app, skipn_app, Nat.sub_diag, firstn_O, skipn_O, firstn_all, skipn_all.
  rewrite app_nil_r, rev_involutive. split; reflexivity.
Qed.

(** X2: Pushing [vals] and then popping a dict with as many [keys] leaves
    the stack as it was; the dict maps each key to the value pushed in its
    position, the last one for a repeated key. *)
Lemma stack_pop_dict_push (s vals : list vector) (keys : list string)
    (Hlen : length vals = length keys) :
  exists d, VectorStack_pop_dict (fold_left push vals s) keys = Ok (d, s) /\
    forall k, dict_get d k = last_get (combine keys vals) k None.
Proof.
  rewrite push_all_rev. unfold VectorStack_pop_dict, stack_len, pop_dict.
  rewrite length_app, length_rev, <- Hlen.
  rewrite (proj2 (Z.ltb_ge _ _)) by lia.
  rewrite (proj2 (Nat.ltb_ge _ _)) by lia.
  rewrite <- (length_rev vals).
  rewrite firstn_app, skipn_app, Nat.sub_diag, firstn_O, skipn_O, firstn_all, skipn_all.
  rewrite app_nil_r, rev_involutive.
  eexists. split; [reflexivity|]. intros k.
  exact (dict_get_update [] (combine keys vals) k).
Qed.

Lemma stack_pop_dict_push_witness :
  length [true_; null_] = length ["a"%string; "b"%string] /\
  exists d, VectorStack_pop_dict (fold_left push [true_; null_] []) ["a"%string; "b"%string] = Ok (d, []) /\
    forall k, dict_get d k = last_get (combine ["a"%string; "b"%string] [true_; null_]) k None.
Proof.
  split; [reflexivity|].
  exact (stack_pop_dict_push [] [true_; null_] ["a"%string; "b"%string] eq_refl).
Defined.

(** X3: The checked [VectorStack] methods raise [Insufficient items] when
    asked for more items than the stack holds and the count fits a C [int];
    a count of 2^31 or more raises [OverflowError] in [drop], [pop_tuple],
    [pop_list] and [pop_composed]; and [pop], [peek] and [poke] raise
    [Stack empty] on an empty stack. *)
Lemma stack_underflow_raises (s : list vector) (count : Z) (v : vector) :
  ((stack_len s < count <= 2147483647)%Z ->
     VectorStack_drop s count = Raise "Insufficient items" /\
    VectorStack_pop_tuple s count = Raise "Insufficient items" /\
    VectorStack_pop_list s count = Raise "Insufficient items" /\
    VectorStack_pop_composed s count = Raise "Insufficient items" /\
    VectorStack_peek_at s (count - 1) = Raise "Insufficient items" /\
    VectorStack_poke_at s (count - 1) v = Raise "Insufficient items" /\
    (forall keys, Z.of_nat (length keys) = count ->
        VectorStack_pop_dict s keys = Raise "Insufficient items")) /\
    ((2147483647 < count)%Z ->
     VectorStack_drop s count = Raise "OverflowError" /\
    VectorStack_pop_tuple s count = Raise "OverflowError" /\
    VectorStack_pop_list s count = Raise "OverflowError" /\
    VectorStack_pop_composed s count = Raise "OverflowError") /\
    (s = [] ->
     pop s = Raise "Stack empty" /\ peek s = Raise "Stack empty" /\
    VectorStack_poke s v = Raise "Stack empty").
Proof.
  assert (Hs : (0 <= stack_len s)%Z) by (unfold stack_len; lia).
  split; [|split].
  - intros H. unfold VectorStack_drop, VectorStack_pop_tuple, VectorStack_pop_list,
      VectorStack_pop_composed, VectorStack_peek_at, VectorStack_poke_at, VectorStack_pop_dict.
    assert (Hi : int_arg_ok count = true)
      by (unfold int_arg_ok; apply andb_true_iff; split; [apply Z.leb_le|apply Z.ltb_lt]; lia).
    rewrite Hi. simpl negb. cbv iota.
    rewrite (proj2 (Z.ltb_lt _ _)) by lia.
    rewrite (proj2 (Z.leb_le _ _)) by lia.
    repeat split; try reflexivity.
    intros keys Hk. rewrite Hk, (proj2 (Z.ltb_lt _ _)) by lia. reflexivity.
  - intros H. unfold VectorStack_drop, VectorStack_pop_tuple, VectorStack_pop_list,
      VectorStack_pop_composed.
    assert (Hi : int_arg_ok count = false)
      by (unfold int_arg_ok; rewrite (proj2 (Z.ltb_ge count _)) by lia; apply andb_false_r).
    rewrite Hi. repeat split; reflexivity.
  - intros ->. repeat split; reflexivity.
Qed.

Lemma stack_underflow_raises_witness :
  (stack_len [true_] < 2 <= 2147483647)%Z /\ (2147483647 < 2147483648)%Z /\
    VectorStack_pop_tuple [true_] 2 = Raise "Insufficient items" /\
    VectorStack_drop [true_] 2147483648 = Raise "OverflowError" /\
    VectorStack_poke [] true_ = Raise "Stack empty".
Proof.
  assert (H : (stack_len [true_] < 2 <= 2147483647)%Z) by (unfold stack_len; simpl; lia).
  assert (H' : (2147483647 < 2147483648)%Z) by lia.
  split; [exact H|]. split; [exact H'|]. split; [|split].
  - exact (proj1 (proj2 (proj1 (stack_underflow_raises [true_] 2 true_) H))).
  - exact (proj1 (proj1 (proj2 (stack_underflow_raises [true_] 2147483648 true_)) H')).
  - exact (proj2 (proj2 (proj2 (proj2 (stack_underflow_raises [] 2 true_)) eq_refl))).
Defined.

Lemma replace_nth_length s k v : length (replace_nth s k v) = length s.
Proof.
  revert k. induction s as [|x s IH]; intros [|k]; simpl; try reflexivity.
  rewrite IH. reflexivity.
Qed.

Lemma replace_nth_nth_error s k v j :
  k < length s ->
  nth_error (replace_nth s k v) j = if Nat.eqb j k then Some v else nth_error s j.
Proof.
  revert k j. induction s as [|x s IH]; intros [|k] [|j] H; simpl in *; try lia;
    try reflexivity.
  apply IH. lia.
Qed.

(** X4: For an offset inside the stack, [VectorStack.poke_at] replaces
    exactly the vector [offset] places below the top: the length is
    unchanged, [peek_at] there gives the new vector and every other offset
    reads as before; [poke] is [poke_at] at offset 0. *)
Lemma stack_poke_at_peek (s : list vector) (offset : Z) (v : vector)
    (H0 : (0 <= offset)%Z) (H1 : (offset < stack_len s)%Z) :
  exists s', VectorStack_poke_at s offset v = Ok s' /\ stack_len s' = stack_len s /\
    VectorStack_peek_at s' offset = Ok v /\
    (forall o, o <> offset -> VectorStack_peek_at s' o = VectorStack_peek_at s o) /\
    (offset = 0%Z -> VectorStack_poke s v = Ok s').
Proof.
  unfold stack_len in H1.
  assert (Hk : Z.to_nat offset < length s) by lia.
  exists (replace_nth s (Z.to_nat offset) v).
  assert (Hl : stack_len (replace_nth s (Z.to_nat offset) v) = stack_len s)
    by (unfold stack_len; rewrite replace_nth_length; reflexivity).
  unfold VectorStack_poke_at, poke_at.
  rewrite (proj2 (Z.leb_gt _ _)) by (unfold stack_len; lia).
  rewrite (proj2 (Z.ltb_ge _ _)) by lia.
  rewrite (proj2 (Z.leb_gt _ _)) by (unfold stack_len; lia).
  split; [reflexivity|]. split; [exact Hl|]. split; [|split].
  - unfold VectorStack_peek_at, peek_at. rewrite Hl.
    rewrite (proj2 (Z.leb_gt _ _)) by (unfold stack_len; lia).
    rewrite (proj2 (Z.ltb_ge _ _)) by lia.
    rewrite replace_nth_nth_error, Nat.eqb_refl by exact Hk. reflexivity.
  - intros o Ho. unfold VectorStack_peek_at, peek_at. rewrite Hl.
    destruct (stack_len s - 1 - o <=? -1)%Z; [reflexivity|].
    destruct (o <? 0)%Z eqn:Eo; [reflexivity|].
    apply Z.ltb_ge in Eo.
    rewrite replace_nth_nth_error by exact Hk.
    rewrite (proj2 (Nat.eqb_neq _ _)) by lia. reflexivity.
  - intros ->. destruct s as [|x s']; [simpl in H1; lia|]. reflexivity.
Qed.

Lemma stack_poke_at_peek_witness :
  (0 <= 1)%Z /\ (1 < stack_len [null_; null_])%Z /\
  exists s', VectorStack_poke_at [null_; null_] 1 true_ = Ok s' /\
    VectorStack_peek_at s' 1 = Ok true_ /\ VectorStack_peek_at s' 0 = Ok null_.
Proof.
  assert (H0 : (0 <= 1)%Z) by lia.
  assert (H1 : (1 < stack_len [null_; null_])%Z) by (vm_compute; reflexivity).
  split; [exact H0|]. split; [exact H1|].
  destruct (stack_poke_at_peek [null_; null_] 1 true_ H0 H1) as [s' [Hp [_ [Hk [Ho _]]]]].
  exists s'. split; [exact Hp|]. split; [exact Hk|].
  rewrite (Ho 0%Z) by discriminate. reflexivity.
Defined.

(** X5: For counts [n], [m] >= 0 whose sum fits a C [int], dropping [n]
    then [m] items gives the same outcome as dropping [n + m] items, error
    included, and a successful drop of [n] shortens the stack by [n]. *)
Lemma stack_drop_compose (s : list vector) (n m : Z) (Hn : (0 <= n)%Z) (Hm : (0 <= m)%Z)
    (Hnm : (n + m <= 2147483647)%Z) :
  (s1 <- VectorStack_drop s n ;; VectorStack_drop s1 m) = VectorStack_drop s (n + m) /\
    (forall s1, VectorStack_drop s n = Ok s1 -> stack_len s1 = (stack_len s - n)%Z).
Proof.
  assert (Hi : forall z, (0 <= z <= 2147483647)%Z -> int_arg_ok z = true)
    by (intros z Hz; unfold int_arg_ok; apply andb_true_iff;
        split; [apply Z.leb_le|apply Z.ltb_lt]; lia).
  unfold VectorStack_drop.
  rewrite (Hi n), (Hi m), (Hi (n + m)%Z) by lia. simpl negb. cbv iota.
  unfold drop, stack_len.
  destruct (Z.ltb_spec (Z.of_nat (length s)) n); simpl.
  - destruct (Z.ltb_spec (Z.of_nat (length s)) (n + m)); [|lia].
    split; [reflexivity|]. discriminate.
  - destruct (Z.ltb_spec n 0); [lia|]. simpl.
    rewrite length_skipn, Nat2Z.inj_sub, Z2Nat.id by lia.
    split; [|intros s1 Hs; injection Hs as <-; rewrite length_skipn; lia].
    destruct (Z.ltb_spec (Z.of_nat (length s) - n) m);
      destruct (Z.ltb_spec (Z.of_nat (length s)) (n + m)); try lia; simpl; [reflexivity|].
    destruct (Z.ltb_spec m 0); [lia|]. destruct (Z.ltb_spec (n + m) 0); [lia|]. simpl.
    rewrite skipn_skipn. f_equal. f_equal. lia.
Qed.

Lemma stack_drop_compose_witness :
  (0 <= 1)%Z /\ (0 <= 2)%Z /\ (1 + 2 <= 2147483647)%Z/\
    (s1 <- VectorStack_drop [null_; null_; true_] 1 ;; VectorStack_drop s1 2) =
    VectorStack_drop [null_; null_; true_] (1 + 2).
Proof.
  assert (H1 : (0 <= 1)%Z) by lia. assert (H2 : (0 <= 2)%Z) by lia.
  assert (H3 : (1 + 2 <= 2147483647)%Z) by lia.
  split; [exact H1|]. split; [exact H2|]. split; [exact H3|].
  exact (proj1 (stack_drop_compose [null_; null_; true_] 1 2 H1 H2 H3)).
Defined.

(** X6: On a non-empty stack, [Dup] grows the stack by one and a following
    [Drop 1] gives back the frame it started from. *)
Lemma dup_drop_restores h load run_module body ctx fr w (Hne : f_stack fr <> []) :
  exists fr1, step h load run_module body ctx IDup fr w = Ok (0%Z, fr1, w) /\
    stack_len (f_stack fr1) = (stack_len (f_stack fr) + 1)%Z /\
    step h load run_module body ctx (IDrop 1) fr1 w = Ok (0%Z, fr, w).
Proof.
  destruct fr as [st lv sc vars]. simpl in Hne.
  destruct st as [|v st]; [congruence|].
  eexists. split; [reflexivity|]. split.
  - unfold stack_len. simpl. lia.
  - simpl. unfold drop. rewrite (proj2 (Z.ltb_ge _ 1)) by (simpl; lia). reflexivity.
Qed.

Lemma dup_drop_restores_witness :
  f_stack (mkFrame [true_] [] None []) <> [] /\
  exists fr1, step empty_host no_loader idle_run_module idle_body (RootContext 1) IDup
                (mkFrame [true_] [] None []) empty_world = Ok (0%Z, fr1, empty_world) /\
    step empty_host no_loader idle_run_module idle_body (RootContext 1) (IDrop 1) fr1 empty_world =
      Ok (0%Z, mkFrame [true_] [] None [], empty_world).
Proof.
  assert (Hne : f_stack (mkFrame [true_] [] None []) <> []) by discriminate.
  split; [exact Hne|].
  destruct (dup_drop_restores empty_host no_loader idle_run_module idle_body (RootContext 1)
              (mkFrame [true_] [] None []) empty_world Hne) as [fr1 [H1 [_ H2]]].
  exists fr1. split; [exact H1|exact H2].
Defined.

(** X7: [StoreGlobal name] pops the top into the variables, and a following
    [Name name] pushes that vector back. *)
Lemma store_global_then_name h load run_module body ctx name v s fr w sd
    (Hs : f_stack fr = v :: s) (Hsc : scope_dict fr w = Ok sd) :
  exists fr1, step h load run_module body ctx (IStoreGlobal name) fr w = Ok (0%Z, fr1, w) /\
    f_stack fr1 = s /\ dict_get (f_vars fr1) name = Some v /\
    step h load run_module body ctx (IName name) fr1 w = Ok (0%Z, set_stack fr1 (v :: s), w).
Proof.
  destruct fr as [st lv sc vars]. simpl in Hs. subst st.
  eexists. split; [reflexivity|]. split; [reflexivity|].
  simpl. rewrite dict_get_set, String.eqb_refl. split; [reflexivity|].
  unfold name_step. unfold scope_dict in *. simpl in *. rewrite Hsc. simpl.
  rewrite dict_get_set, String.eqb_refl. reflexivity.
Qed.

Lemma store_global_then_name_witness :
  exists fr1, step empty_host no_loader idle_run_module idle_body (RootContext 1)
                (IStoreGlobal "x") (mkFrame [true_] [] None []) empty_world = Ok (0%Z, fr1, empty_world) /\
    step empty_host no_loader idle_run_module idle_body (RootContext 1) (IName "x") fr1 empty_world =
      Ok (0%Z, set_stack fr1 [true_], empty_world).
Proof.
  destruct (store_global_then_name empty_host no_loader idle_run_module idle_body (RootContext 1)
              "x" true_ [] (mkFrame [true_] [] None []) empty_world None eq_refl eq_refl)
    as [fr1 [H1 [_ [_ H2]]]].
  exists fr1. split; [exact H1|exact H2].
Defined.

(** X8: [Literal v] followed by [Pragma name] leaves the frame as it was and
    sets the pragma [name] to [v]; [Pragma] on an empty stack raises [Stack
    empty]. *)
Lemma literal_then_pragma h load run_module body ctx v name fr w :
  (exists fr1, step h load run_module body ctx (ILiteral v) fr w = Ok (0%Z, fr1, w) /\
     step h load run_module body ctx (IPragma name) fr1 w =
       Ok (0%Z, fr, set_pragmas w (dict_set (w_pragmas w) name v)) /\
     dict_get (dict_set (w_pragmas w) name v) name = Some v) /\
  (f_stack fr = [] -> step h load run_module body ctx (IPragma name) fr w = Raise "Stack empty").
Proof.
  destruct fr as [st lv sc vars]. split.
  - eexists. split; [reflexivity|]. split; [reflexivity|].
    rewrite dict_get_set, String.eqb_refl. reflexivity.
  - simpl. intros ->. reflexivity.
Qed.

Lemma literal_then_pragma_witness :
  step empty_host no_loader idle_run_module idle_body (RootContext 1) (IPragma "p")
    (mkFrame [] [] None []) empty_world = Raise "Stack empty".
Proof.
  exact (proj2 (literal_then_pragma empty_host no_loader idle_run_module idle_body (RootContext 1)
                  true_ "p" (mkFrame [] [] None []) empty_world) eq_refl).
Defined.

Lemma for_objects_inv (f : world -> obj -> outcome world) (I : world -> Prop)
    (R : world -> world -> Prop) (D : obj -> world -> Prop) :
  (forall w, R w w) -> (forall a b c, R a b -> R b c -> R a c) ->
  (forall o a b, D o a -> R a b -> D o b) ->
  (forall w o w', I w -> f w o = Ok w' -> I w' /\ R w w' /\ D o w') ->
  forall l w w', I w -> for_objects f l w = Ok w' ->
    I w' /\ R w w' /\ forall o, In o l -> D o w'.
Proof.
  intros Hrefl Htrans Hstab Hf l. induction l as [|o l IH]; intros w w' Hi H; simpl in H.
  - injection H as <-. split; [exact Hi|]. split; [apply Hrefl|]. intros o [].
  - destruct (f w o) as [w1| |] eqn:E; try discriminate. simpl in H.
    destruct (Hf w o w1 Hi E) as [Hi1 [Hr1 Hd1]].
    destruct (IH w1 w' Hi1 H) as [Hi' [Hr' Hd']].
    split; [exact Hi'|]. split; [eapply Htrans; eassumption|].
    intros o' [<-|Ho]; [eapply Hstab; eassumption|apply Hd'; exact Ho].
Qed.

Lemma append_root_one_inv w o w' :
  graph_ok w -> append_root_one w o = Ok w' ->
  graph_ok w' /\ parented_kept w w' /\ obj_parented o w'.
Proof.
  intros [Hnd Hpar] H. unfold append_root_one in H.
  destruct o as [s|id|d|nm|fid|pid|];
    try (injection H as <-; split; [split; assumption|];
         split; [split; [exists []; rewrite app_nil_r; reflexivity|auto]|];
         intros id' E; discriminate).
  destruct (assoc_get (w_nodes w) id) as [n|] eqn:En; [|discriminate].
  destruct (node_parent n) as [p|] eqn:Ep.
  - injection H as <-. split; [split; assumption|].
    split; [split; [exists []; rewrite app_nil_r; reflexivity|auto]|].
    intros id' E. injection E as <-. exists n. rewrite Ep. split; [exact En|discriminate].
  - injection H as <-. unfold set_graph, set_nodes. simpl.
    assert (Hnot : ~ In id (w_graph w)).
    { intros Hin. destruct (Hpar id Hin) as [n' [En' Hp']]. rewrite En in En'.
      injection En' as <-. congruence. }
    unfold graph_ok, parented_kept, obj_parented. cbn [w_nodes w_graph].
    split; [split|split; [split|]].
    + apply NoDup_app; [exact Hnd|constructor; [intros []|constructor]|].
      intros x Hx [<-|[]]. contradiction.
    + intros id' Hin. cbn [w_nodes w_graph] in *. rewrite assoc_get_set.
      destruct (Nat.eqb_spec id' id) as [->|Hne].
      * eexists. split; [reflexivity|]. simpl. discriminate.
      * apply in_app_or in Hin. destruct Hin as [Hin|[<-|[]]]; [|congruence].
        apply Hpar. exact Hin.
    + eexists. reflexivity.
    + intros id' n' En' Hp'. rewrite assoc_get_set.
      destruct (Nat.eqb_spec id' id) as [->|Hne]; [|exact En'].
      rewrite En in En'. injection En' as <-. congruence.
    + intros id' E. injection E as <-. rewrite assoc_get_set, Nat.eqb_refl.
      eexists. split; [reflexivity|]. simpl. discriminate.
Qed.

(** X9: AppendRoot keeps the root's children distinct parented nodes: it
    only appends children, leaves every parented node unchanged, and
    afterwards every node of the popped vector has a parent. *)
Lemma append_root_graph_ok stack w s' w' :
  graph_ok w -> append_root_step stack w = Ok (s', w') ->
  graph_ok w' /\ (exists l, w_graph w' = w_graph w ++ l) /\
  (forall id n, assoc_get (w_nodes w) id = Some n -> node_parent n <> None ->
     assoc_get (w_nodes w') id = Some n) /\
  (forall objs, peek stack = Ok (VObj objs) -> forall id, In (ONode id) objs ->
     exists n, assoc_get (w_nodes w') id = Some n /\ node_parent n <> None).
Proof.
  intros Hg H. unfold append_root_step in H.
  destruct stack as [|r1 s1]; [discriminate|]. simpl in H.
  destruct r1 as [l|objs].
  - injection H as <- <-. split; [exact Hg|].
    split; [exists []; rewrite app_nil_r; reflexivity|]. split; [auto|].
    intros objs E. discriminate.
  - destruct (for_objects append_root_one objs w) as [w1| |] eqn:E; try discriminate.
    simpl in H. injection H as <- <-.
    destruct (for_objects_inv append_root_one graph_ok parented_kept obj_parented)
      with (l := objs) (w := w) (w' := w1) as [Hg' [[[l Hl] Hk] Hd]]; try assumption.
    + intros w0. split; [exists []; rewrite app_nil_r; reflexivity|auto].
    + intros a b c [[l1 H1] K1] [[l2 H2] K2]. split.
      * exists (l1 ++ l2). rewrite H2, H1, app_assoc. reflexivity.
      * intros id n Hn Hp. apply K2; [apply K1|]; assumption.
    + intros o a b Hd [_ K] id Eo. destruct (Hd id Eo) as [n [Hn Hp]].
      exists n. split; [apply K; assumption|exact Hp].
    + intros w0 o w0'. apply append_root_one_inv.
    + split; [exact Hg'|]. split; [exists l; exact Hl|]. split; [exact Hk|].
      intros objs' Eo id Hin. injection Eo as <-. apply (Hd (ONode id) Hin id). reflexivity.
Qed.

Lemma append_root_graph_ok_witness :
  graph_ok foo_world /\
  exists s' w', append_root_step [VObj [ONode 1]] foo_world = Ok (s', w') /\ graph_ok w' /\
    exists n, assoc_get (w_nodes w') 1 = Some n /\ node_parent n <> None.
Proof.
  assert (Hg : graph_ok foo_world) by (split; [constructor|intros id []]).
  split; [exact Hg|].
  destruct (append_root_step [VObj [ONode 1]] foo_world) as [[s' w']| |] eqn:E;
    [|vm_compute in E; discriminate..].
  exists s', w'.
  destruct (append_root_graph_ok [VObj [ONode 1]] foo_world s' w' Hg E) as [Hg' [_ [_ Hd]]].
  split; [reflexivity|]. split; [exact Hg'|].
  apply (Hd [ONode 1] eq_refl 1). left. reflexivity.
Defined.

Lemma set_add_mono s x y : In y s -> In y (set_add s x).
Proof.
  unfold set_add. destruct (existsb (String.eqb x) s); [auto|].
  intros H. apply in_or_app. left. exact H.
Qed.

Lemma set_add_present s x : In x s -> set_add s x = s.
Proof.
  intros H. unfold set_add.
  replace (existsb (String.eqb x) s) with true; [reflexivity|].
  symmetry. apply existsb_exists. exists x. split; [exact H|apply String.eqb_refl].
Qed.

Lemma assoc_set_same {A : Type} (l : list (nat * A)) k a :
  assoc_get l k = Some a -> assoc_set l k a = l.
Proof.
  induction l as [|[k0 a0] l IH]; simpl; [discriminate|].
  destruct (Nat.eqb_spec k k0) as [->|Hne].
  - intros H. injection H as ->. reflexivity.
  - intros H. rewrite IH by exact H. reflexivity.
Qed.

Lemma tag_one_inv name w o w' :
  tag_one name w o = Ok w' -> tags_kept name w w' /\ obj_tagged name o w'.
Proof.
  unfold tag_one. intros H.
  destruct o as [s|id|d|nm|fid|pid|];
    try (injection H as <-; split;
         [intros id' n En; exists n; split; [exact En|auto]|intros id' E; discriminate]).
  destruct (assoc_get (w_nodes w) id) as [n|] eqn:En; [|discriminate].
  injection H as <-. unfold set_nodes. split.
  - intros id' n' En'. cbn [w_nodes]. rewrite assoc_get_set.
    destruct (Nat.eqb_spec id' id) as [->|Hne].
    + rewrite En in En'. injection En' as <-. eexists. split; [reflexivity|].
      simpl. apply set_add_mono.
    + exists n'. split; [exact En'|auto].
  - intros id' E. injection E as <-. cbn [w_nodes]. rewrite assoc_get_set, Nat.eqb_refl.
    eexists. split; [reflexivity|]. simpl. apply set_add_in.
Qed.

Lemma tag_all_tagged name objs w :
  (forall o, In o objs -> obj_tagged name o w) -> for_objects (tag_one name) objs w = Ok w.
Proof.
  induction objs as [|o objs IH]; intros H; simpl; [reflexivity|].
  assert (Ht : tag_one name w o = Ok w).
  { unfold tag_one. destruct o as [s|id|d|nm|fid|pid|]; try reflexivity.
    destruct (H (ONode id) (or_introl eq_refl) id eq_refl) as [n [En Hin]].
    rewrite En, set_add_present by exact Hin.
    destruct n as [k t a sh p]. simpl. rewrite assoc_set_same by exact En.
    destruct w. reflexivity. }
  rewrite Ht. simpl. apply IH. intros o' Ho. apply H. right. exact Ho.
Qed.

(** X10: A successful [Tag name] leaves the frame unchanged, and running it
    again on the heap it produced changes nothing. *)
Lemma tag_idempotent h load run_module body ctx name fr w fr1 w1 :
  step h load run_module body ctx (ITag name) fr w = Ok (0%Z, fr1, w1) ->
  fr1 = fr /\ step h load run_module body ctx (ITag name) fr1 w1 = Ok (0%Z, fr1, w1).
Proof.
  simpl. destruct (f_stack fr) as [|r1 s] eqn:Es; [discriminate|]. simpl.
  destruct r1 as [l|objs].
  - intros H. injection H as <- <-. split; [reflexivity|]. rewrite Es. reflexivity.
  - destruct (for_objects (tag_one name) objs w) as [w'| |] eqn:E; try discriminate.
    simpl. intros H. injection H as <- <-. split; [reflexivity|]. rewrite Es. simpl.
    destruct (for_objects_inv (tag_one name) (fun _ => True) (tags_kept name) (obj_tagged name))
      with (l := objs) (w := w) (w' := w') as [_ [_ Hd]]; try assumption; try exact I.
    + intros w0 id n En. exists n. split; [exact En|auto].
    + intros a b c Hab Hbc id n En. destruct (Hab id n En) as [n1 [En1 Hi1]].
      destruct (Hbc id n1 En1) as [n2 [En2 Hi2]]. exists n2. split; [exact En2|auto].
    + intros o a b Hd Hk id Eo. destruct (Hd id Eo) as [n [En Hin]].
      destruct (Hk id n En) as [n' [En' Hi']]. exists n'. split; [exact En'|auto].
    + intros w0 o w0' _ Ht. split; [exact I|]. apply tag_one_inv. exact Ht.
    + rewrite tag_all_tagged by exact Hd. reflexivity.
Qed.

Lemma tag_idempotent_witness :
  exists fr1 w1,
    step empty_host no_loader idle_run_module idle_body (RootContext 1) (ITag "t")
      (mkFrame [VObj [ONode 1]] [] None []) foo_world = Ok (0%Z, fr1, w1) /\
    step empty_host no_loader idle_run_module idle_body (RootContext 1) (ITag "t") fr1 w1 =
      Ok (0%Z, fr1, w1).
Proof.
  destruct (step empty_host no_loader idle_run_module idle_body (RootContext 1) (ITag "t")
              (mkFrame [VObj [ONode 1]] [] None []) foo_world) as [[[z fr1] w1]| |] eqn:E;
    pose proof E as E'; vm_compute in E'; try discriminate.
  injection E' as Ez _ _. subst z.
  exists fr1, w1. split; [reflexivity|].
  exact (proj2 (tag_idempotent empty_host no_loader idle_run_module idle_body (RootContext 1)
                  "t" (mkFrame [VObj [ONode 1]] [] None []) foo_world fr1 w1 E)).
Defined.

(** X11: SetNodeScope leaves the stack, locals and variables alone and never
    alters an existing attribute map; with a single node on top, that node
    afterwards owns an unshared map with the same attributes, which becomes
    the node scope, and no other node changes. *)
Lemma set_node_scope_cow fr w fr' w' :
  set_node_scope_step fr w = Ok (fr', w') ->
  f_stack fr' = f_stack fr /\ f_lvars fr' = f_lvars fr /\ f_vars fr' = f_vars fr /\
  (forall did d, assoc_get (w_dicts w) did = Some d -> assoc_get (w_dicts w') did = Some d) /\
  (forall id, peek (f_stack fr) = Ok (VObj [ONode id]) ->
     (exists n', assoc_get (w_nodes w') id = Some n' /\ node_attributes_shared n' = false /\
        f_scope fr' = Some (node_attributes n') /\ attrs_of w' id = attrs_of w id) /\
     (forall id', id' <> id -> assoc_get (w_nodes w') id' = assoc_get (w_nodes w) id')).
Proof.
  unfold set_node_scope_step. destruct (f_stack fr) as [|r1 s] eqn:Es; [discriminate|].
  simpl. intros H.
  destruct r1 as [l|[|[s0|id|d|nm|fid|pid|] [|o l]]];
    try (injection H as <- <-; rewrite Es;
         split; [reflexivity|split; [reflexivity|split; [reflexivity|split;
           [auto|intros ? E; simpl in E; discriminate]]]]).
  destruct (assoc_get (w_nodes w) id) as [n|] eqn:En; [|discriminate].
  destruct (node_attributes_shared n) eqn:Esh.
  - destruct (assoc_get (w_dicts w) (node_attributes n)) as [attributes|] eqn:Ed;
      [|discriminate].
    injection H as <- <-. cbn.
    split; [reflexivity|split; [reflexivity|split; [reflexivity|split]]].
    + intros did d Hd. rewrite assoc_get_set.
      destruct (Nat.eqb_spec did (fresh_id (w_dicts w))) as [->|Hne]; [|exact Hd].
      rewrite fresh_id_spec in Hd. discriminate.
    + intros id' E. injection E as <-. split.
      * rewrite assoc_get_set, Nat.eqb_refl.
        eexists. split; [reflexivity|]. split; [reflexivity|]. split; [reflexivity|].
        unfold attrs_of. cbn. rewrite assoc_get_set, Nat.eqb_refl, En. cbn.
        rewrite assoc_get_set, Nat.eqb_refl. exact (eq_sym Ed).
      * intros id' Hne. rewrite assoc_get_set.
        destruct (Nat.eqb_spec id' id); [congruence|reflexivity].
  - injection H as <- <-. cbn.
    split; [reflexivity|split; [reflexivity|split; [reflexivity|split]]].
    + intros did d Hd. exact Hd.
    + intros id' E. injection E as <-. split; [exists n; auto|auto].
Qed.

Lemma set_node_scope_cow_witness :
  exists fr' w',
    set_node_scope_step (mkFrame [VObj [ONode 1]] [] None [])
      (mkWorld [(1, mkNode "foo" [] 1 true None)] [(1, [])] [] [] [] [] []) = Ok (fr', w') /\
    f_stack fr' = [VObj [ONode 1]] /\
    exists n', assoc_get (w_nodes w') 1 = Some n' /\ node_attributes_shared n' = false /\
      f_scope fr' = Some (node_attributes n') /\ assoc_get (w_dicts w') 1 = Some [].
Proof.
  destruct (set_node_scope_step (mkFrame [VObj [ONode 1]] [] None [])
              (mkWorld [(1, mkNode "foo" [] 1 true None)] [(1, [])] [] [] [] [] []))
    as [[fr' w']| |] eqn:E; [|vm_compute in E; discriminate..].
  exists fr', w'. split; [reflexivity|].
  destruct (set_node_scope_cow _ _ fr' w' E) as [Hs [_ [_ [Hd Hn]]]].
  split; [exact Hs|].
  destruct (proj1 (Hn 1 eq_refl)) as [n' [En' [Hsh [Hsc _]]]].
  exists n'. split; [exact En'|]. split; [exact Hsh|]. split; [exact Hsc|].
  apply Hd. reflexivity.
Defined.

Lemma instr_eq_dec_label (i : instr) (l : Z) : {i = ILabel l} + {i <> ILabel l}.
Proof.
  destruct i; try (right; discriminate).
  destruct (Z.eq_dec label l) as [->|Hne]; [left; reflexivity|right; congruence].
Defined.

Lemma label_address_spec code l : forall addr acc,
  (label_address code addr l acc = acc /\ forall j, nth_error code j <> Some (ILabel l)) \/
  (exists j, label_address code addr l acc = Some (addr + j) /\
     nth_error code j = Some (ILabel l) /\
     forall j', j < j' -> nth_error code j' <> Some (ILabel l)).
Proof.
  induction code as [|i code IH]; intros addr acc.
  - left. split; [reflexivity|]. intros [|j]; discriminate.
  - assert (Hs : exists acc', label_address (i :: code) addr l acc =
                   label_address code (S addr) l acc' /\
                   (i = ILabel l -> acc' = Some addr) /\ (i <> ILabel l -> acc' = acc)).
    { destruct i; try (exists acc; split; [reflexivity|split; [discriminate|auto]]).
      simpl. destruct (Z.eqb_spec l label) as [->|Hne].
      - eexists. split; [reflexivity|]. split; [auto|]. intros H. congruence.
      - eexists. split; [reflexivity|]. split; [|auto]. intros H. injection H. congruence. }
    destruct Hs as [acc' [Hl [H1 H2]]]. rewrite Hl.
    destruct (IH (S addr) acc') as [[Ha Hn]|[j [Ha [Hj Hlast]]]].
    + rewrite Ha. destruct (instr_eq_dec_label i l) as [Ei|Ei].
      * right. exists 0. rewrite (H1 Ei), Nat.add_0_r. split; [reflexivity|].
        split; [simpl; rewrite Ei; reflexivity|]. intros [|j'] Hj'; [lia|exact (Hn j')].
      * left. rewrite (H2 Ei). split; [reflexivity|].
        intros [|j]; [simpl; intros E; injection E; exact Ei|exact (Hn j)].
    + right. exists (S j). rewrite Ha. split; [f_equal; lia|]. split; [exact Hj|].
      intros [|j'] Hj'; [lia|]. apply Hlast. lia.
Qed.

Lemma link_spec p q :
  link p = Ok q ->
  linked q = true /\ prog_path q = prog_path p /\
  length (instructions q) = length (instructions p) /\
  forall a i, nth_error (instructions p) a = Some i ->
    (jump_label i = None -> nth_error (instructions q) a = Some i) /\
    (forall l, jump_label i = Some l ->
       exists t, nth_error (instructions p) t = Some (ILabel l) /\
         (forall t', t < t' -> nth_error (instructions p) t' <> Some (ILabel l)) /\
         nth_error (instructions q) a = Some (set_offset i (Z.of_nat t - Z.of_nat a))).
Proof.
  unfold link. set (code := instructions p).
  match goal with |- context [bind (?F code 0) _] => set (go := F) end.
  assert (Hgo : forall c addr c', go c addr = Ok c' ->
            length c' = length c /\
            forall a i, nth_error c a = Some i ->
              (jump_label i = None -> nth_error c' a = Some i) /\
              (forall l, jump_label i = Some l ->
                 exists t, label_address code 0 l None = Some t /\
                   nth_error c' a = Some (set_offset i (Z.of_nat t - Z.of_nat (addr + a))))).
  { induction c as [|i c IH]; intros addr c' H.
    - simpl in H. injection H as <-. split; [reflexivity|]. intros [|a] i' E; discriminate.
    - simpl in H.
      destruct (match jump_label i with
                | Some l => match label_address code 0 l None with
                            | Some t => Ok (set_offset i (Z.of_nat t - Z.of_nat addr)%Z)
                            | None => Raise "KeyError" end
                | None => Ok i end) as [i'| |] eqn:Ei; try discriminate.
      simpl in H. destruct (go c (S addr)) as [rest| |] eqn:Er; try discriminate.
      simpl in H. injection H as <-.
      destruct (IH (S addr) rest Er) as [Hlen Hnth].
      split; [simpl; rewrite Hlen; reflexivity|].
      intros [|a] i0 E; simpl in E.
      + injection E as <-. split.
        * intros Hj. rewrite Hj in Ei. injection Ei as <-. reflexivity.
        * intros l Hj. rewrite Hj in Ei.
          destruct (label_address code 0 l None) as [t|]; [|discriminate].
          injection Ei as <-. exists t. split; [reflexivity|]. rewrite Nat.add_0_r. reflexivity.
      + destruct (Hnth a i0 E) as [N1 N2]. split; [exact N1|].
        intros l Hj. destruct (N2 l Hj) as [t [Ht Hn]]. exists t. split; [exact Ht|].
        simpl. rewrite Hn. do 3 f_equal. lia. }
  intros H. destruct (go code 0) as [c'| |] eqn:E; try discriminate.
  simpl in H. injection H as <-. simpl.
  destruct (Hgo code 0 c' E) as [Hlen Hnth].
  split; [reflexivity|]. split; [reflexivity|]. split; [exact Hlen|].
  intros a i Ha. destruct (Hnth a i Ha) as [N1 N2]. split; [exact N1|].
  intros l Hj. destruct (N2 l Hj) as [t [Ht Hn]].
  destruct (label_address_spec code l 0 None) as [[Hl _]|[j [Hl [Hj' Hlast]]]];
    rewrite Ht in Hl; [discriminate|].
  injection Hl as ->. exists j. split; [exact Hj'|]. split; [exact Hlast|]. exact Hn.
Qed.

(** X12: A successful [link] gives a linked program with the same path and
    length, in which every instruction other than a jump is unchanged and
    every jump's offset is the distance from it to the last label of its
    name. *)
Lemma link_resolves p q :
  link p = Ok q ->
  linked q = true /\ prog_path q = prog_path p /\
  length (instructions q) = length (instructions p) /\
  forall a i, nth_error (instructions p) a = Some i ->
    (jump_label i = None -> nth_error (instructions q) a = Some i) /\
    (forall l, jump_label i = Some l ->
       exists t, nth_error (instructions p) t = Some (ILabel l) /\
         (forall t', t < t' -> nth_error (instructions p) t' <> Some (ILabel l)) /\
         nth_error (instructions q) a = Some (set_offset i (Z.of_nat t - Z.of_nat a))).
Proof. exact (link_spec p q). Qed.

Lemma link_resolves_witness :
  exists q, link (mkProgram [IJump 0 0; ILabel 0] false 0) = Ok q /\ linked q = true /\
    nth_error (instructions q) 0 = Some (IJump 0 1).
Proof.
  destruct (link (mkProgram [IJump 0 0; ILabel 0] false 0)) as [q| |] eqn:E;
    [|vm_compute in E; discriminate..].
  exists q. split; [reflexivity|].
  destruct (link_resolves _ q E) as [Hl [_ [_ Hnth]]].
  split; [exact Hl|].
  destruct (proj2 (Hnth 0 (IJump 0 0) eq_refl) 0%Z eq_refl) as [t [Ht [_ Hq]]].
  rewrite Hq. destruct t as [|[|t]].
  - discriminate Ht.
  - reflexivity.
  - destruct t; discriminate Ht.
Defined.

(** X13: If a jump names a label that the program does not contain, [link]
    raises [KeyError]. *)
Lemma link_missing_label p a i l :
  nth_error (instructions p) a = Some i -> jump_label i = Some l ->
  (forall t, nth_error (instructions p) t <> Some (ILabel l)) ->
  link p = Raise "KeyError".
Proof.
  intros Ha Hj Hno. unfold link. set (code := instructions p) in *.
  match goal with |- context [bind (?F code 0) _] => set (go := F) end.
  assert (Hl : label_address code 0 l None = None).
  { destruct (label_address_spec code l 0 None) as [[E _]|[j [_ [Hj' _]]]];
      [exact E|exfalso; exact (Hno j Hj')]. }
  assert (Hgo : forall c addr, (exists a', nth_error c a' = Some i) ->
            go c addr = Raise "KeyError").
  { induction c as [|i0 c IH]; intros addr [a' Ha']; [destruct a'; discriminate|].
    simpl.
    destruct a' as [|a'].
    - simpl in Ha'. injection Ha' as ->. rewrite Hj, Hl. reflexivity.
    - destruct (jump_label i0) as [l0|].
      + destruct (label_address code 0 l0 None) as [t|]; [|reflexivity].
        simpl. rewrite (IH (S addr)) by (exists a'; exact Ha'). reflexivity.
      + simpl. rewrite (IH (S addr)) by (exists a'; exact Ha'). reflexivity. }
  rewrite (Hgo code 0) by (exists a; exact Ha). reflexivity.
Qed.

Lemma link_missing_label_witness :
  link (mkProgram [IJump 0 0] false 0) = Raise "KeyError".
Proof.
  apply (link_missing_label (mkProgram [IJump 0 0] false 0) 0 (IJump 0 0) 0 eq_refl eq_refl).
  intros [|t]; simpl; [discriminate|destruct t; simpl; discriminate].
Defined.

(** X14: In a linked program a [Jump] continues just after the label it
    names: executing the jump moves the program counter to that label's
    address plus one. *)
Lemma linked_jump_lands p q a l off fuel h load ctx fr w :
  link p = Ok q -> nth_error (instructions q) a = Some (IJump l off) ->
  exists t, nth_error (instructions q) t = Some (ILabel l) /\
    (Z.of_nat a + 1 + off = Z.of_nat t + 1)%Z /\
    exec_loop (S fuel) h load ctx (instructions q) (Z.of_nat a) fr w =
    exec_loop fuel h load ctx (instructions q) (Z.of_nat t + 1) fr w.
Proof.
  intros Hq Ha.
  destruct (link_spec p q Hq) as [_ [_ [Hlen Hnth]]].
  assert (Hlt : a < length (instructions p)).
  { rewrite <- Hlen. apply nth_error_Some. rewrite Ha. discriminate. }
  destruct (nth_error (instructions p) a) as [i|] eqn:Ep;
    [|apply nth_error_None in Ep; lia].
  destruct (Hnth a i Ep) as [N1 N2].
  destruct (jump_label i) as [l'|] eqn:Ej.
  2:{ rewrite (N1 eq_refl) in Ha. injection Ha as ->. discriminate. }
  destruct (N2 l' eq_refl) as [t [Ht [_ Hq']]]. rewrite Ha in Hq'.
  destruct i; simpl in Ej, Hq'; try discriminate.
  injection Hq' as E1 E2. injection Ej as E3. subst.
  exists t. split.
  - destruct (Hnth t _ Ht) as [M1 _]. apply M1. reflexivity.
  - split; [lia|].
    simpl. rewrite Nat2Z.id, Ha.
    rewrite (proj2 (Z.leb_le 0 _)) by lia.
    assert (Hlt' : a < length (instructions q)) by lia.
    rewrite (proj2 (Z.ltb_lt _ _)) by lia. simpl. f_equal. lia.
Qed.

Lemma linked_jump_lands_witness :
  exists q, link (mkProgram [IJump 0 0; ILabel 0] false 0) = Ok q /\
    nth_error (instructions q) 0 = Some (IJump 0 1) /\
    exists t, nth_error (instructions q) t = Some (ILabel 0) /\
      exec_loop 1 empty_host no_loader (RootContext 0) (instructions q) 0 (mkFrame [] [] None []) empty_world =
      exec_loop 0 empty_host no_loader (RootContext 0) (instructions q) (Z.of_nat t + 1)
        (mkFrame [] [] None []) empty_world.
Proof.
  destruct (link (mkProgram [IJump 0 0; ILabel 0] false 0)) as [q| |] eqn:E;
    pose proof E as E'; vm_compute in E'; try discriminate.
  injection E' as Eq. exists q. split; [reflexivity|].
  assert (Ha : nth_error (instructions q) 0 = Some (IJump 0 1)) by (rewrite <- Eq; reflexivity).
  split; [exact Ha|].
  destruct (linked_jump_lands _ q 0 0 1 0 empty_host no_loader (RootContext 0)
              (mkFrame [] [] None []) empty_world E Ha) as [t [Ht [_ Hx]]].
  exists t. split; [exact Ht|exact Hx].
Defined.

Lemma optimize_step_length acc i : length (optimize_step acc i) <= S (length acc).
Proof.
  destruct acc as [|last acc']; simpl; [lia|].
  destruct last; destruct i; simpl; try lia;
    try (destruct (vlength _ =? 0); simpl; lia).
Qed.

Lemma optimize_fold_length l acc : length (fold_left optimize_step l acc) <= length l + length acc.
Proof.
  revert acc. induction l as [|i l IH]; intros acc; simpl; [lia|].
  specialize (IH (optimize_step acc i)). pose proof (optimize_step_length acc i). lia.
Qed.

(** X15: [optimize] never makes a program longer; its result is unlinked and
    keeps the path. *)
Lemma optimize_never_lengthens p q :
  optimize p = Ok q ->
  length (instructions q) <= length (instructions p) /\ linked q = false /\
  prog_path q = prog_path p.
Proof.
  unfold optimize. destruct (linked p); [discriminate|].
  intros H. injection H as <-. simpl. rewrite length_rev.
  pose proof (optimize_fold_length (instructions p) []). simpl in H. 
  split; [lia|auto].
Qed.

Lemma optimize_never_lengthens_witness :
  exists q, optimize (mkProgram [ICompose 2; ICompose 3; IMul; IAdd] false 0) = Ok q /\
    length (instructions q) <= 4 /\ linked q = false.
Proof.
  destruct (optimize (mkProgram [ICompose 2; ICompose 3; IMul; IAdd] false 0)) as [q| |] eqn:E;
    [|vm_compute in E; discriminate..].
  exists q. split; [reflexivity|].
  destruct (optimize_never_lengthens _ q E) as [Hl [Hk _]].
  split; [exact Hl|exact Hk].
Defined.

Lemma skipn_app_length {A : Type} (l r : list A) n : n = length l -> skipn n (l ++ r) = r.
Proof. intros ->. rewrite skipn_app, skipn_all, Nat.sub_diag. reflexivity. Qed.

Lemma import_names_length filename vars names w :
  length (fst (import_names filename vars names w)) = length names.
Proof.
  revert w. induction names as [|nm ns IH]; intros w; simpl; [reflexivity|].
  destruct (match dict_get vars nm with
            | Some v => (v, w)
            | None => (null_, add_error w _) end) as [v w1].
  specialize (IH w1). destruct (import_names filename vars ns w1) as [vs w2].
  simpl in *. rewrite IH. reflexivity.
Qed.

(** X16: [Import] pops the filename and pushes exactly one local per
    imported name above the existing locals, whether or not the file was
    found; node scope and variables are unchanged. *)
Lemma import_pushes_one_local_per_name load run_module ctx names fr w fr' w' :
  import_step load run_module ctx names fr w = Ok (fr', w') ->
  length (f_lvars fr') = length names + length (f_lvars fr) /\
  skipn (length names) (f_lvars fr') = f_lvars fr /\
  f_stack fr' = tl (f_stack fr) /\ f_scope fr' = f_scope fr /\ f_vars fr' = f_vars fr.
Proof.
  unfold import_step. destruct (f_stack fr) as [|r s1] eqn:Es; [discriminate|]. simpl.
  destruct (import_module load run_module ctx (as_string r) w) as [[iv w1]| |]; try discriminate.
  simpl. destruct iv as [vars|].
  - pose proof (import_names_length (as_string r) vars names w1) as Hl.
    destruct (import_names (as_string r) vars names w1) as [vs w2].
    simpl in Hl. intros H. injection H as <- <-. simpl.
    rewrite length_app, length_rev, Hl.
    rewrite skipn_app_length by (rewrite length_rev; exact (eq_sym Hl)).
    repeat split; reflexivity.
  - intros H. injection H as <- <-. simpl.
    rewrite length_app, repeat_length.
    rewrite skipn_app_length by (rewrite repeat_length; reflexivity).
    repeat split; reflexivity.
Qed.

Lemma import_pushes_one_local_per_name_witness :
  exists fr' w',
    import_step no_loader idle_run_module (RootContext 1) ["x"%string; "y"%string]
      (mkFrame [VObj [OStr "m"]] [true_] None []) empty_world = Ok (fr', w') /\
    length (f_lvars fr') = 2 + 1 /\ skipn 2 (f_lvars fr') = [true_] /\ f_stack fr' = [].
Proof.
  destruct (import_step no_loader idle_run_module (RootContext 1) ["x"%string; "y"%string]
              (mkFrame [VObj [OStr "m"]] [true_] None []) empty_world) as [[fr' w']| |] eqn:E;
    [|vm_compute in E; discriminate..].
  exists fr', w'. split; [reflexivity|].
  destruct (import_pushes_one_local_per_name _ _ _ _ _ _ fr' w' E) as [H1 [H2 [H3 _]]].
  split; [exact H1|]. split; [exact H2|exact H3].
Defined.

(** X17: Calling a numeric vector pops the callee, the keyword values and
    the [n] arguments, and pushes [null]. *)
Lemma call_numeric_callee_null body ctx n names fr w l rest
    (Hs : f_stack fr = VNum l :: rest) (Hn : (0 <= n)%Z)
    (Hlen : Z.to_nat n + (match names with Some ks => length ks | None => 0 end)
            <= length rest) :
  call_step body ctx n names fr w =
  Ok (set_stack fr (null_ :: skipn (Z.to_nat n)
                     (skipn (match names with Some ks => length ks | None => 0 end) rest)), w).
Proof.
  unfold call_step. rewrite Hs. simpl.
  set (k := match names with Some ks => length ks | None => 0 end) in *.
  assert (Hkw : exists kw, (match names with
                  | Some ks => '(d, s) <- pop_dict rest ks ;; Ok (Some d, s)
                  | None => Ok (None, rest) end) = Ok (kw, skipn k rest)).
  { subst k. destruct names as [ks|]; [|exists None; reflexivity].
    unfold pop_dict. rewrite (proj2 (Nat.ltb_ge _ _)) by lia. eexists. reflexivity. }
  destruct Hkw as [kw Hkw]. rewrite Hkw. simpl.
  destruct (Z.eqb_spec n 0) as [->|Hn0].
  - reflexivity.
  - rewrite (proj2 (Z.ltb_ge n 0)) by lia. unfold pop_tuple.
    rewrite (proj2 (Nat.ltb_ge _ _)) by (rewrite length_skipn; lia). reflexivity.
Qed.

Lemma call_numeric_callee_null_witness :
  call_step idle_body (RootContext 1) 1 None (mkFrame [true_; null_; true_] [] None []) empty_world =
  Ok (set_stack (mkFrame [true_; null_; true_] [] None [])
        (null_ :: skipn (Z.to_nat 1) (skipn 0 [null_; true_])), empty_world).
Proof.
  exact (call_numeric_callee_null idle_body (RootContext 1) 1 None
           (mkFrame [true_; null_; true_] [] None []) empty_world [d_one] [null_; true_]
           eq_refl ltac:(lia) ltac:(simpl; lia)).
Defined.

(** X18: The instruction [Program.literal] emits for a vector holding no
    node pushes that vector and changes nothing else. *)
Lemma literal_instr_pushes h load run_module body ctx v fr w :
  (match v with VObj l => existsb is_node_obj l = false | VNum _ => True end) ->
  step h load run_module body ctx (literal_instr v) fr w = Ok (0%Z, set_stack fr (v :: f_stack fr), w).
Proof.
  destruct v as [l|l]; [reflexivity|]. intros H.
  destruct l as [|o [|o' l]]; try reflexivity.
  - destruct o; try reflexivity. discriminate.
  - unfold literal_instr. rewrite H. destruct o; reflexivity.
Qed.

Lemma literal_instr_pushes_witness :
  step empty_host no_loader idle_run_module idle_body (RootContext 1)
    (literal_instr (VObj [OStr "a"; OStr "b"])) (mkFrame [] [] None []) empty_world =
  Ok (0%Z, set_stack (mkFrame [] [] None []) [VObj [OStr "a"; OStr "b"]], empty_world).
Proof.
  exact (literal_instr_pushes empty_host no_loader idle_run_module idle_body (RootContext 1)
           (VObj [OStr "a"; OStr "b"]) (mkFrame [] [] None []) empty_world eq_refl).
Defined.

Lemma extends_trans (lv lv1 lv2 : list string) :
  (exists ext, lv1 = lv ++ ext) -> (exists ext, lv2 = lv1 ++ ext) -> exists ext, lv2 = lv ++ ext.
Proof. intros [e1 ->] [e2 ->]. exists (e1 ++ e2). rewrite app_assoc. reflexivity. Qed.

Ltac bind_ok H :=
  match type of H with
  | bind ?m _ = Ok _ =>
      let E := fresh "E" in
      destruct m as [[? ?]| |] eqn:E; simpl in H; try discriminate
  end.

Ltac fin_ext H :=
  injection H as _ <-; first [exists []; rewrite app_nil_r; reflexivity | idtac].

Lemma compile_expr_lvars_ext (e : expr) : extends_lvars e.
Proof.
  induction e using expr_nested_ind; unfold extends_lvars in *; intros lv c lv' Hc;
    simpl in Hc.
  - fin_ext Hc.
  - destruct (local_offset nm (rev lv) 0); fin_ext Hc.
  - destruct (local_offset nm (rev lv) 0); fin_ext Hc.
  - (* Call *)
    match type of Hc with context [bind (?F args lv) _] =>
      assert (HF : forall es l0 c0 l1, Forall extends_lvars es -> F es l0 = Ok (c0, l1) ->
                     exists ext, l1 = l0 ++ ext)
    end.
    { induction es as [|x es IHes]; intros l0 c0 l1 Hf E; simpl in E; [fin_ext E|].
      inversion Hf as [|? ? Hx Hes]; subst. bind_ok E. bind_ok E. fin_ext E.
      eapply extends_trans; [eapply Hx; eassumption|eapply IHes; eassumption]. }
    bind_ok Hc.
    match goal with E : _ args lv = Ok (_, ?L) |- _ =>
      assert (Hargs : exists ext, L = lv ++ ext) by (eapply HF; eassumption) end.
    match type of Hc with
    | bind ?m _ = Ok _ => destruct m as [[]| |] eqn:Eu; simpl in Hc; try discriminate
    end.
    destruct kw as [kws|].
    + match type of Hc with context [bind (?F kws ?L) _] =>
        assert (HK : forall bs m0 c0 m1, Forall (fun b => extends_lvars (snd b)) bs ->
                       F bs m0 = Ok (c0, m1) -> exists ext, m1 = m0 ++ ext)
      end.
      { induction bs as [|[nm x] bs IHbs]; intros m0 c0 m1 Hf Ef; simpl in Ef; [fin_ext Ef|].
        inversion Hf as [|? ? Hx Hbs]; subst. bind_ok Ef. bind_ok Ef. fin_ext Ef.
        eapply extends_trans; [eapply Hx; eassumption|eapply IHbs; eassumption]. }
      bind_ok Hc. bind_ok Hc. fin_ext Hc.
      eapply extends_trans; [exact Hargs|].
      eapply extends_trans; [eapply HK; eassumption|eapply IHe; eassumption].
    + simpl in Hc. bind_ok Hc. fin_ext Hc.
      eapply extends_trans; [exact Hargs|eapply IHe; eassumption].
  - bind_ok Hc. fin_ext Hc. eapply IHe. eassumption.
  - (* Attributes *)
    bind_ok Hc. destruct e as [v| | | | | | | | | | | | | |]; try discriminate.
    destruct (vlength v =? 1); [|discriminate].
    match type of Hc with context [bind (?F bs ?L) _] =>
      assert (HA : forall bs' m0 c0 m1, Forall (fun b => extends_lvars (snd b)) bs' ->
                     F bs' m0 = Ok (c0, m1) -> exists ext, m1 = m0 ++ ext)
    end.
    { induction bs' as [|[nm x] bs' IHbs]; intros m0 c0 m1 Hf Ef; simpl in Ef; [fin_ext Ef|].
      inversion Hf as [|? ? Hx Hbs]; subst. bind_ok Ef. bind_ok Ef. fin_ext Ef.
      eapply extends_trans; [eapply Hx; eassumption|eapply IHbs; eassumption]. }
    bind_ok Hc. fin_ext Hc.
    eapply extends_trans; [eapply IHe; eassumption|eapply HA; eassumption].
  - (* FastAttributes *)
    bind_ok Hc. match type of Hc with context [bind (?F bs ?L) _] =>
      assert (HA : forall bs' m0 c0 m1, Forall (fun b => extends_lvars (snd b)) bs' ->
                     F bs' m0 = Ok (c0, m1) -> exists ext, m1 = m0 ++ ext)
    end.
    { induction bs' as [|[nm x] bs' IHbs]; intros m0 c0 m1 Hf Ef; simpl in Ef; [fin_ext Ef|].
      inversion Hf as [|? ? Hx Hbs]; subst. bind_ok Ef. bind_ok Ef. fin_ext Ef.
      eapply extends_trans; [eapply Hx; eassumption|eapply IHbs; eassumption]. }
    bind_ok Hc. fin_ext Hc.
    eapply extends_trans; [eapply IHe; eassumption|eapply HA; eassumption].
  - fin_ext Hc.
  - bind_ok Hc. fin_ext Hc. eapply IHe. eassumption.
  - bind_ok Hc. fin_ext Hc. eapply extends_trans; [eapply IHe; eassumption|].
    exists names. reflexivity.
  - match type of Hc with ?F ?st bs lv = Ok _ =>
      assert (HL : forall bs' m0 c0 m1, Forall (fun b => extends_lvars (snd b)) bs' ->
                     F st bs' m0 = Ok (c0, m1) -> exists ext, m1 = m0 ++ ext)
    end.
    { induction bs' as [|[names x] bs' IHbs]; intros m0 c0 m1 Hf Ef; simpl in Ef; [fin_ext Ef|].
      inversion Hf as [|? ? Hx Hbs]; subst. bind_ok Ef.
      first [ destruct names as [|nm [|]]; try discriminate; bind_ok Ef; fin_ext Ef;
              eapply extends_trans; [eapply Hx; eassumption|eapply IHbs; eassumption]
            | bind_ok Ef; fin_ext Ef;
              eapply extends_trans; [eapply Hx; eassumption|];
              eapply extends_trans; [exists names; reflexivity|eapply IHbs; eassumption] ]. }
    eapply HL; eassumption.
  - match type of Hc with ?F ?st bs lv = Ok _ =>
      assert (HL : forall bs' m0 c0 m1, Forall (fun b => extends_lvars (snd b)) bs' ->
                     F st bs' m0 = Ok (c0, m1) -> exists ext, m1 = m0 ++ ext)
    end.
    { induction bs' as [|[names x] bs' IHbs]; intros m0 c0 m1 Hf Ef; simpl in Ef; [fin_ext Ef|].
      inversion Hf as [|? ? Hx Hbs]; subst. bind_ok Ef.
      first [ destruct names as [|nm [|]]; try discriminate; bind_ok Ef; fin_ext Ef;
              eapply extends_trans; [eapply Hx; eassumption|eapply IHbs; eassumption]
            | bind_ok Ef; fin_ext Ef;
              eapply extends_trans; [eapply Hx; eassumption|];
              eapply extends_trans; [exists names; reflexivity|eapply IHbs; eassumption] ]. }
    eapply HL; eassumption.
  - discriminate.
  - bind_ok Hc. bind_ok Hc. fin_ext Hc.
    eapply extends_trans; [eapply IHe1; eassumption|eapply IHe2; eassumption].
  - bind_ok Hc. bind_ok Hc. fin_ext Hc.
    eapply extends_trans; [eapply IHe1; eassumption|eapply IHe2; eassumption].
Qed.

(** X19: Compiling an expression only ever appends names to the compile-time
    locals list. *)
Lemma compile_expr_extends_lvars (e : expr) (lv : list string) (c : list instr) (lv' : list string) :
  compile_expr e lv = Ok (c, lv') -> exists ext, lv' = lv ++ ext.
Proof. exact (compile_expr_lvars_ext e lv c lv'). Qed.

Lemma compile_expr_extends_lvars_witness :
  exists c lv', compile_expr (ELet [(["x"%string], ELiteral true_)]) ["a"%string] = Ok (c, lv') /\
    exists ext, lv' = ["a"%string] ++ ext.
Proof.
  destruct (compile_expr (ELet [(["x"%string], ELiteral true_)]) ["a"%string]) as [[c lv']| |] eqn:E;
    [|vm_compute in E; discriminate..].
  exists c, lv'. split; [reflexivity|].
  exact (compile_expr_extends_lvars _ _ c lv' E).
Defined.

Lemma local_offset_spec nm rl : forall k,
  match local_offset nm rl k with
  | Some i => k <= i /\ nth_error rl (i - k) = Some nm /\
              forall j, j < i - k -> nth_error rl j <> Some nm
  | None => ~ In nm rl
  end.
Proof.
  induction rl as [|n rl IH]; intros k; simpl; [auto|].
  destruct (String.eqb_spec nm n) as [->|Hne].
  - rewrite Nat.sub_diag. split; [lia|]. split; [reflexivity|]. intros j Hj. lia.
  - specialize (IH (S k)). destruct (local_offset nm rl (S k)) as [i|].
    + destruct IH as [Hk [Hi Hj]]. split; [lia|].
      replace (i - k) with (S (i - S k)) by lia. split; [exact Hi|].
      intros [|j] Hjl; simpl; [congruence|]. apply Hj. lia.
    + intros [E|E]; [congruence|contradiction].
Qed.

(** X20: A name that is a compile-time local compiles to a [LocalLoad] of
    its innermost (most recently bound) occurrence; any other name compiles
    to [Name]. *)
Lemma compile_name_innermost_local nm lv :
  (In nm lv -> exists i, compile_expr (EName nm) lv = Ok ([ILocalLoad (Z.of_nat i)], lv) /\
     nth_error (rev lv) i = Some nm /\ forall j, j < i -> nth_error (rev lv) j <> Some nm) /\
  (~ In nm lv -> compile_expr (EName nm) lv = Ok ([IName nm], lv)).
Proof.
  pose proof (local_offset_spec nm (rev lv) 0) as H. simpl.
  destruct (local_offset nm (rev lv) 0) as [i|].
  - rewrite Nat.sub_0_r in H. destruct H as [_ [Hi Hj]]. split.
    + intros _. exists i. split; [reflexivity|]. split; [exact Hi|exact Hj].
    + intros Hn. exfalso. apply Hn. apply in_rev. apply nth_error_In with i. exact Hi.
  - split.
    + intros Hin. exfalso. apply H. apply in_rev in Hin. exact Hin.
    + intros _. reflexivity.
Qed.

Lemma compile_name_innermost_local_witness :
  In "x"%string ["x"%string; "y"%string] /\
  exists i, compile_expr (EName "x") ["x"%string; "y"%string] =
              Ok ([ILocalLoad (Z.of_nat i)], ["x"%string; "y"%string]) /\
    nth_error (rev ["x"%string; "y"%string]) i = Some "x"%string.
Proof.
  assert (Hin : In "x"%string ["x"%string; "y"%string]) by (left; reflexivity).
  split; [exact Hin|].
  destruct (proj1 (compile_name_innermost_local "x" ["x"%string; "y"%string]) Hin)
    as [i [Hc [Hi _]]].
  exists i. split; [exact Hc|exact Hi].
Defined.

Lemma top_eval_loop_nonempty ev es c es' c' :
  top_eval_loop ev es c = Ok (es', c') ->
  forall v, In (ELiteral v) es' -> 0 < vlength v.
Proof.
  revert c es'. induction es as [|e es IH]; intros c es' H; simpl in H.
  - injection H as <- _. intros v [].
  - bind_ok H. bind_ok H. injection H as <- <-. intros v Hin.
    apply in_app_or in Hin. destruct Hin as [Hin|Hin]; [|eapply IH; eassumption].
    destruct e0 as [v0| | | | | | | | | | | | | |]; try (destruct Hin as [Ee|[]]; discriminate).
    destruct (0 <? vlength v0) eqn:Ev; [|destruct Hin].
    destruct Hin as [Ee|[]]. injection Ee as ->. apply Nat.ltb_lt. exact Ev.
Qed.

(** X21: [Top.simplify] never leaves an empty literal among the simplified
    expressions. *)
Lemma simplify_drops_empty_literals fuel h es vars undef w es' w' :
  simplify fuel h es vars undef w = Ok (es', w') ->
  forall v, In (ELiteral v) es' -> 0 < vlength v.
Proof.
  unfold simplify.
  match goal with |- context [top_evaluate ?ev es ?c0] =>
    destruct (top_evaluate ev es c0) as [[l c1]| |] eqn:E end; try discriminate.
  intros H. injection H as <- _. unfold top_evaluate in E. bind_ok E.
  injection E as <- _. intros v Hin. apply in_app_or in Hin.
  destruct Hin as [Hin|Hin]; [eapply top_eval_loop_nonempty; eassumption|].
  match goal with Hin : In _ (match ?b with [] => [] | _ => _ end) |- _ =>
    destruct b; [destruct Hin|destruct Hin as [Ee|[]]; discriminate] end.
Qed.

Lemma simplify_drops_empty_literals_witness :
  exists es' w',
    simplify 10 empty_host [ELiteral true_; ELiteral null_; EName "x"] [("x"%string, null_)] []
      empty_world = Ok (es', w') /\
    forall v, In (ELiteral v) es' -> 0 < vlength v.
Proof.
  destruct (simplify 10 empty_host [ELiteral true_; ELiteral null_; EName "x"] [("x"%string, null_)] []
              empty_world) as [[es' w']| |] eqn:E; [|vm_compute in E; discriminate..].
  exists es', w'. split; [reflexivity|].
  exact (simplify_drops_empty_literals _ _ _ _ _ _ es' w' E).
Defined.

Lemma bget_bset d k v k' : bget (bset d k v) k' = if String.eqb k' k then Some v else bget d k'.
Proof.
  induction d as [|[k0 v0] d IH]; simpl.
  - reflexivity.
  - destruct (String.eqb_spec k k0) as [->|Hne]; simpl.
    + destruct (String.eqb k' k0); reflexivity.
    + rewrite IH. destruct (String.eqb_spec k' k0); destruct (String.eqb_spec k' k); congruence.
Qed.

Lemma bget_unknown_notin names vs k :
  ~ In k names -> bget (fold_left (fun vs nm => bset vs nm BNone) names vs) k = bget vs k.
Proof.
  revert vs. induction names as [|nm ns IH]; intros vs Hn; simpl; [reflexivity|].
  rewrite IH by (intros H; apply Hn; right; exact H).
  rewrite bget_bset. destruct (String.eqb_spec k nm); [|reflexivity].
  exfalso. apply Hn. left. congruence.
Qed.

Lemma bget_unknown_in names vs k :
  In k names -> bget (fold_left (fun vs nm => bset vs nm BNone) names vs) k = Some BNone.
Proof.
  revert vs. induction names as [|nm ns IH]; intros vs Hin; [destruct Hin|]. simpl.
  destruct (in_dec String.string_dec k ns) as [Hk|Hk]; [apply IH; exact Hk|].
  destruct Hin as [<-|Hin]; [|contradiction].
  rewrite bget_unknown_notin by exact Hk. rewrite bget_bset, String.eqb_refl. reflexivity.
Qed.

(** X22: Partially evaluating [let x=v] for a numeric literal [v] removes
    the let and binds [x], and the name [x] then evaluates to the literal
    [v]. *)
Lemma let_literal_then_name fuel h x l c :
  exists c1, evaluate (S (S fuel)) h (ELet [([x], ELiteral (VNum l))]) c = Ok (NoOp, c1) /\
    bget (e_variables c1) x = Some (BVector (VNum l)) /\
    evaluate (S fuel) h (EName x) c1 = Ok (ELiteral (VNum l), c1).
Proof.
  eexists. split; [reflexivity|]. simpl. rewrite bget_bset, String.eqb_refl.
  split; [reflexivity|]. simpl. destruct c. reflexivity.
Qed.

(** X23: Partially evaluating an [import], whatever its filename
    expression, first marks each of its names as unknown ([None]) in the
    variables, leaving the other variables and the rest of the context as
    they were, then evaluates the filename in that context and rebuilds
    the import; in that context each imported name evaluates to itself. *)
Lemma import_marks_names_unknown fuel h names f c :
  let c1 := set_variables c (fold_left (fun vs nm => bset vs nm BNone) names (e_variables c)) in
  evaluate (S fuel) h (EImport names f) c =
    ('(f', c2) <- evaluate fuel h f c1 ;; Ok (EImport names f', c2)) /\
  (forall nm, In nm names ->
     bget (e_variables c1) nm = Some BNone /\
     forall fuel', evaluate (S fuel') h (EName nm) c1 = Ok (EName nm, c1)) /\
  (forall k, ~ In k names -> bget (e_variables c1) k = bget (e_variables c) k) /\
  e_unbound c1 = e_unbound c /\ e_errors c1 = e_errors c /\ e_world c1 = e_world c.
Proof.
  intros c1. split; [reflexivity|]. split; [|split; [|repeat split]].
  - intros nm Hin. assert (Hb : bget (e_variables c1) nm = Some BNone)
      by (apply bget_unknown_in; exact Hin).
    split; [exact Hb|]. intros fuel'. simpl in Hb |- *. rewrite Hb. reflexivity.
  - intros k Hk. apply bget_unknown_notin. exact Hk.
Qed.
